(** * Block command utilities of umi-build-dev: a shallow embedding

    Source: [packages/umi-build-dev/src/plugins/commands/block/util.js].

    Conventions of the embedding.
    - A JavaScript string is a [string]; the functions below only inspect
      ASCII letters, digits and ['/'], so the byte view of a string and its
      UTF-16 view agree on everything the code looks at.
    - A function that can throw returns a [Result].
    - A plain JavaScript object used as a map is the list of its own
      string-keyed properties in insertion order (see [Obj]).  Reading a
      property also sees the members inherited from [Object.prototype]
      ([read_truthy]); [Object.keys] and object spread list the array-index
      keys first, in ascending order ([Object_keys]).
    - Functions imported from other packages ([path.join], [chalk.cyan],
      [terminalLink], [execa], [fs.existsSync], the spinner) are taken as
      parameters of a Section; [posix_join] is an executable model of
      [path.join] used in closed examples. *)

From Stdlib Require Import List String Ascii Bool Arith NArith Lia Permutation.
Import ListNotations.
Open Scope list_scope.
Open Scope string_scope.

Set Warnings "-register-all".

(** ** Results of computations that may throw *)

Inductive JSError :=
| TypeError (what : string)
| Error (message : string).

Inductive Result (A : Type) :=
| Ok (a : A)
| Throw (e : JSError).
Arguments Ok {A} a.
Arguments Throw {A} e.

(** ** Characters and strings *)

Definition in_range (lo hi c : ascii) : bool :=
  ((N_of_ascii lo <=? N_of_ascii c) && (N_of_ascii c <=? N_of_ascii hi))%N.

Definition is_upper (c : ascii) : bool := in_range "A" "Z" c.
Definition is_lower (c : ascii) : bool := in_range "a" "z" c.
Definition is_digit (c : ascii) : bool := in_range "0" "9" c.

(** [String.prototype.toLowerCase], on the ASCII letters. *)
Definition lower_char (c : ascii) : ascii :=
  if is_upper c then ascii_of_N (N_of_ascii c + 32) else c.

Fixpoint toLowerCase (s : string) : string :=
  match s with
  | EmptyString => EmptyString
  | String c s' => String (lower_char c) (toLowerCase s')
  end.

(** [Array.prototype.join]. *)
Definition array_join (sep : string) (l : list string) : string :=
  String.concat sep l.

Fixpoint take_while (p : ascii -> bool) (s : string) : string :=
  match s with
  | EmptyString => EmptyString
  | String c s' => if p c then String c (take_while p s') else EmptyString
  end.

Fixpoint drop_while (p : ascii -> bool) (s : string) : string :=
  match s with
  | EmptyString => EmptyString
  | String c s' => if p c then drop_while p s' else s
  end.

Fixpoint string_forallb (p : ascii -> bool) (s : string) : bool :=
  match s with
  | EmptyString => true
  | String c s' => p c && string_forallb p s'
  end.

(** ** Regular expressions: the fragment used by [genBlockName]

    A backtracking matcher in continuation-passing style: [exec r s k]
    matches [r] at the start of [s] and hands the rest of the input to [k];
    when [k] fails the matcher backtracks into [r].  Quantifiers are greedy
    and alternatives are tried left to right, as in ECMAScript. *)

Inductive regex :=
| Class (p : ascii -> bool)
| Opt (r : regex)
| Plus (p : ascii -> bool)
| Seq (r1 r2 : regex)
| Alt (r1 r2 : regex).

Fixpoint exec_plus (p : ascii -> bool) (s : string)
         (k : string -> option string) : option string :=
  match s with
  | EmptyString => None
  | String c s' =>
      if p c then
        match exec_plus p s' k with
        | Some rest => Some rest
        | None => k s'
        end
      else None
  end.

Fixpoint exec (r : regex) (s : string) (k : string -> option string)
  : option string :=
  match r with
  | Class p =>
      match s with
      | String c s' => if p c then k s' else None
      | EmptyString => None
      end
  | Opt r1 =>
      match exec r1 s k with
      | Some rest => Some rest
      | None => k s
      end
  | Plus p => exec_plus p s k
  | Seq r1 r2 => exec r1 s (fun s1 => exec r2 s1 k)
  | Alt r1 r2 =>
      match exec r1 s k with
      | Some rest => Some rest
      | None => exec r2 s k
      end
  end.

(** [String.prototype.match] with a global regex: the list of all matches,
    scanning from left to right.  [skip] counts the characters of the
    current position that the previous match already consumed.  An empty
    list stands for the [null] that [match] returns when nothing matches. *)
Fixpoint match_global (r : regex) (s : string) (skip : nat) : list string :=
  match s with
  | EmptyString =>
      match skip with
      | 0 => match exec r EmptyString Some with
             | Some _ => [EmptyString]
             | None => []
             end
      | S _ => []
      end
  | String _ s' =>
      match skip with
      | S n => match_global r s' n
      | 0 =>
          match exec r s Some with
          | Some rest =>
              let n := String.length s - String.length rest in
              substring 0 n s :: match_global r s' (n - 1)
          | None => match_global r s' 0
          end
      end
  end.

(** The literal [/[A-Z]?[a-z]+|[0-9]+/g]. *)
Definition blockNamePattern : regex :=
  Alt (Seq (Opt (Class is_upper)) (Plus is_lower)) (Plus is_digit).

(** [genBlockName]: [match] returns [null] when there is no match, and the
    following [.map] then throws a [TypeError]. *)
Definition genBlockName (name : string) : Result string :=
  match match_global blockNamePattern name 0 with
  | [] => Throw (TypeError "Cannot read property 'map' of null")
  | ps => Ok (array_join "/" (map toLowerCase ps))
  end.

(** The tokenisation as the specification words it: at each position, a
    capital letter immediately followed by lowercase letters starts a token
    made of the capital and the whole lowercase run; a lowercase letter
    starts a token made of the whole lowercase run; a digit starts a token
    made of the whole digit run; any other character (a lone capital
    included) is dropped. *)
Fixpoint spec_tokens (s : string) (skip : nat) : list string :=
  match s with
  | EmptyString => []
  | String c s' =>
      match skip with
      | S n => spec_tokens s' n
      | 0 =>
          if is_upper c && negb (take_while is_lower s' =? "") then
            String c (take_while is_lower s')
              :: spec_tokens s' (String.length (take_while is_lower s'))
          else if is_lower c then
            take_while is_lower s
              :: spec_tokens s' (String.length (take_while is_lower s'))
          else if is_digit c then
            take_while is_digit s
              :: spec_tokens s' (String.length (take_while is_digit s'))
          else spec_tokens s' 0
      end
  end.


(** Whether the pattern matches at some position of [s]. *)
Fixpoint matches_somewhere (r : regex) (s : string) : bool :=
  match exec r s Some with
  | Some _ => true
  | None =>
      match s with
      | EmptyString => false
      | String _ s' => matches_somewhere r s'
      end
  end.

(** The characters a token can start with or contain besides a capital. *)
Definition tokenizable (c : ascii) : bool := is_lower c || is_digit c.

(** ** [path.join] of Node (POSIX flavour), for closed examples

    [split_on] is [String.prototype.split] with a one-character separator. *)

Fixpoint split_on (sep : ascii) (s : string) : list string :=
  match s with
  | EmptyString => [EmptyString]
  | String c s' =>
      if Ascii.eqb c sep then EmptyString :: split_on sep s'
      else match split_on sep s' with
           | seg :: rest => String c seg :: rest
           | [] => [String c EmptyString]
           end
  end.

(** Segment-wise normalisation; [res] is the stack of kept segments, last
    segment first. *)
Fixpoint normalize_segments (allowAboveRoot : bool) (segs res : list string)
  : list string :=
  match segs with
  | [] => rev res
  | seg :: segs' =>
      if (seg =? "") || (seg =? ".") then
        normalize_segments allowAboveRoot segs' res
      else if seg =? ".." then
        match res with
        | last :: res' =>
            if last =? ".." then
              normalize_segments allowAboveRoot segs'
                (if allowAboveRoot then ".." :: res else res)
            else normalize_segments allowAboveRoot segs' res'
        | [] =>
            normalize_segments allowAboveRoot segs'
              (if allowAboveRoot then [".."] else [])
        end
      else normalize_segments allowAboveRoot segs' (seg :: res)
  end.

Definition starts_with_slash (s : string) : bool :=
  match s with
  | String c _ => Ascii.eqb c "/"
  | EmptyString => false
  end.

Fixpoint ends_with_slash (s : string) : bool :=
  match s with
  | EmptyString => false
  | String c EmptyString => Ascii.eqb c "/"
  | String _ s' => ends_with_slash s'
  end.

Definition posix_normalize (path : string) : string :=
  if path =? "" then "."
  else
    let isAbsolute := starts_with_slash path in
    let trailingSeparator := ends_with_slash path in
    let p := array_join "/"
               (normalize_segments (negb isAbsolute) (split_on "/" path) []) in
    if p =? "" then
      if isAbsolute then "/" else if trailingSeparator then "./" else "."
    else
      let p := if trailingSeparator then p ++ "/" else p in
      if isAbsolute then "/" ++ p else p.

Definition posix_join (args : list string) : string :=
  match filter (fun a => negb (a =? "")) args with
  | [] => "."
  | parts => posix_normalize (array_join "/" parts)
  end.

(** ** Block list presentation: [printBlocks] *)

Inductive BlockDescriptor :=
  mkBlock {
    block_type : string;
    block_path : string;
    block_previewUrl : option string;
    block_blocks : option (list BlockDescriptor)
  }.

(** An entry handed to the prompt: [{ name, value, key }]. *)
Record Choice :=
  mkChoice {
    choice_name : string;
    choice_value : string;
    choice_key : string
  }.

(** [Array.prototype.forEach] with a callback that threads a state and may
    throw. *)
Fixpoint forEach {A S : Type} (f : A -> S -> Result S) (l : list A) (s : S)
  : Result S :=
  match l with
  | [] => Ok s
  | a :: l' =>
      match f a s with
      | Ok s' => forEach f l' s'
      | Throw e => Throw e
      end
  end.

(** What a template literal prints for a possibly missing string. *)
Definition interpolate (o : option string) : string :=
  match o with
  | Some s => s
  | None => "undefined"
  end.

Section PrintBlocks.

(** [join] of [path], [chalk.cyan] and [terminalLink]. *)
Variable join : list string -> string.
Variable cyan : string -> string.
Variable terminalLink : string -> string -> string.

Variable hasLink : bool.

(** The record pushed for a descriptor of type ["block"]. *)
Definition blockChoice (parentPath : string) (block : BlockDescriptor)
  : Choice :=
  let blockName := join [parentPath; block_path block] in
  let name := "📦  " ++ cyan blockName ++ "  " in
  let name :=
    if hasLink then
      name ++ terminalLink "预览"
                ("https://preview.pro.ant.design/"
                   ++ interpolate (block_previewUrl block))
    else name in
  mkChoice name blockName blockName.

(** The callback of the [forEach] in [loopBlocks]; [blockArray] is the
    array the closure pushes to. *)
Fixpoint visitBlock (parentPath : string) (block : BlockDescriptor)
         (blockArray : list Choice) {struct block} : Result (list Choice) :=
  match block with
  | mkBlock type path _ blocks =>
      let blockArray :=
        if type =? "block"
        then (blockArray ++ [blockChoice parentPath block])%list
        else blockArray in
      if type =? "dir" then
        match blocks with
        | Some bs => forEach (visitBlock path) bs blockArray
        | None =>
            Throw (TypeError "Cannot read property 'forEach' of undefined")
        end
      else Ok blockArray
  end.

Definition loopBlocks (blocks : list BlockDescriptor) (parentPath : string)
           (blockArray : list Choice) : Result (list Choice) :=
  forEach (visitBlock parentPath) blocks blockArray.

Definition printBlocks (blocks : list BlockDescriptor)
  : Result (list Choice) :=
  loopBlocks blocks "" [].

End PrintBlocks.

(** The data model's invariant on descriptors: a ["dir"] carries a
    [blocks] sequence, any other descriptor carries none. *)
Fixpoint well_formed (block : BlockDescriptor) : bool :=
  match block with
  | mkBlock type _ _ blocks =>
      match blocks with
      | Some bs => (type =? "dir") && forallb well_formed bs
      | None => negb (type =? "dir")
      end
  end.

(** Number of descriptors of type ["block"] in a tree. *)
Fixpoint count_blocks (block : BlockDescriptor) : nat :=
  match block with
  | mkBlock type _ _ blocks =>
      (if type =? "block" then 1 else 0)
      + match blocks with
        | Some bs => list_sum (map count_blocks bs)
        | None => 0
        end
  end.

(** The descriptors of type ["block"] of a tree in depth-first order, each
    with the paths of its ancestor directories, outermost first. *)
Fixpoint block_leaves (ancestors : list string) (block : BlockDescriptor)
  : list (list string * BlockDescriptor) :=
  match block with
  | mkBlock type path _ blocks =>
      ((if type =? "block" then [(ancestors, block)] else [])
       ++ match blocks with
          | Some bs => flat_map (block_leaves (ancestors ++ [path])) bs
          | None => []
          end)%list
  end.

(** The path the specification assigns to a block: all ancestor segments
    joined with the block's own path. *)
Definition spec_block_path (join : list string -> string)
           (leaf : list string * BlockDescriptor) : string :=
  join (fst leaf ++ [block_path (snd leaf)])%list.

(** The path [printBlocks] computes: the enclosing directory's path, or the
    empty string at top level, joined with the block's own path. *)
Definition parent_block_path (join : list string -> string)
           (leaf : list string * BlockDescriptor) : string :=
  join [last (fst leaf) ""; block_path (snd leaf)].

(** ** Repository synchronisation: [gitUpdate] and [gitClone]

    The functions only act on the outside world; a run is described by the
    value it produces and the sequence of effects it performs. *)

Record CloneContext :=
  mkContext {
    repo : string;
    id : string;
    branch : string;
    blocksTempPath : string;
    templateTmpDirPath : string
  }.

(** The options object handed to [execa]: [cwd], and whether [env] is
    given ([process.env]). *)
Record ExecaOptions :=
  mkOptions {
    cwd : string;
    env : bool
  }.

Inductive Event :=
| SpinnerStart (text : string)
| SpinnerSucceed
| SpinnerFail
| Execa (file : string) (args : list string) (options : ExecaOptions)
| ExistsSync (path : string).

(** An effectful computation: from the effects performed so far to a result
    and the effects performed after it. *)
Definition IO (A : Type) : Type := list Event -> Result A * list Event.

Definition ret {A : Type} (a : A) : IO A := fun tr => (Ok a, tr).

Definition bind {A B : Type} (m : IO A) (f : A -> IO B) : IO B :=
  fun tr =>
    match m tr with
    | (Ok a, tr') => f a tr'
    | (Throw e, tr') => (Throw e, tr')
    end.

Definition throw {A : Type} (e : JSError) : IO A := fun tr => (Throw e, tr).

Definition try_catch {A : Type} (body : IO A) (handler : JSError -> IO A)
  : IO A :=
  fun tr =>
    match body tr with
    | (Ok a, tr') => (Ok a, tr')
    | (Throw e, tr') => handler e tr'
    end.

Definition emit (ev : Event) : IO unit := fun tr => (Ok tt, (tr ++ [ev])%list).

Notation "x <- m ;; k" := (bind m (fun x => k))
  (at level 61, m at next level, right associativity).
Notation "m ;; k" := (bind m (fun _ => k))
  (at level 61, right associativity).

(** [String(e)] for an error object, and [new Error(e)]. *)
Definition error_to_string (e : JSError) : string :=
  match e with
  | TypeError what => "TypeError: " ++ what
  | Error message => "Error: " ++ message
  end.

Definition new_Error (e : JSError) : JSError := Error (error_to_string e).

Definition error_message (e : JSError) : string :=
  match e with
  | TypeError what => what
  | Error message => message
  end.

Section RepoSync.

(** The outside world.  [process_fails history file args options] is
    [Some message] when the child process started after [history] exits
    non-zero, [message] being the message of the error [execa] rejects
    with; [file_exists history path] is the answer of [fs.existsSync]. *)
Variable process_fails :
  list Event -> string -> list string -> ExecaOptions -> option string.
Variable file_exists : list Event -> string -> bool.
Variable join : list string -> string.

Definition execa (file : string) (args : list string)
           (options : ExecaOptions) : IO unit :=
  fun tr =>
    let tr' := (tr ++ [Execa file args options])%list in
    match process_fails tr file args options with
    | Some message => (Throw (Error message), tr')
    | None => (Ok tt, tr')
    end.

Definition existsSync (path : string) : IO bool :=
  fun tr => (Ok (file_exists tr path), (tr ++ [ExistsSync path])%list).

Definition spinner_start (text : string) : IO unit :=
  emit (SpinnerStart text).
Definition spinner_succeed : IO unit := emit SpinnerSucceed.
Definition spinner_fail : IO unit := emit SpinnerFail.

Definition isSubmodule (templateTmpDirPath : string) : IO bool :=
  existsSync (join [templateTmpDirPath; ".gitmodules"]).

(** The handler shared by every [catch] block. *)
Definition fail_and_rethrow {A : Type} (e : JSError) : IO A :=
  spinner_fail ;; throw (new_Error e).

Definition gitUpdate (ctx : CloneContext) : IO unit :=
  spinner_start "🚒  Git fetch" ;;
  try_catch
    (execa "git" ["fetch"] (mkOptions (templateTmpDirPath ctx) false))
    fail_and_rethrow ;;
  spinner_succeed ;;
  spinner_start ("🚛  Git checkout " ++ branch ctx) ;;
  try_catch
    (execa "git" ["checkout"; branch ctx]
       (mkOptions (templateTmpDirPath ctx) false))
    fail_and_rethrow ;;
  spinner_succeed ;;
  spinner_start "🚀  Git pull" ;;
  try_catch
    (execa "git" ["pull"] (mkOptions (templateTmpDirPath ctx) false) ;;
     marker <- isSubmodule (templateTmpDirPath ctx) ;;
     if (marker : bool) then
       spinner_succeed ;;
       execa "git" ["submodule"; "init"]
         (mkOptions (templateTmpDirPath ctx) true) ;;
       spinner_start "👀  update submodule" ;;
       execa "git" ["submodule"; "update"; "--recursive"]
         (mkOptions (templateTmpDirPath ctx) false)
     else ret tt)
    fail_and_rethrow ;;
  spinner_succeed.

Definition gitClone (ctx : CloneContext) : IO unit :=
  spinner_start ("🔍  clone git repo from " ++ repo ctx) ;;
  try_catch
    (execa "git"
       ["clone"; repo ctx; id ctx; "--single-branch";
        "--recurse-submodules"; "-b"; branch ctx]
       (mkOptions (blocksTempPath ctx) true))
    fail_and_rethrow ;;
  spinner_succeed.

End RepoSync.

(** The [execa] calls of a run, in order. *)
Definition processes (tr : list Event) : list (list string) :=
  flat_map (fun ev => match ev with
                      | Execa _ args _ => [args]
                      | _ => []
                      end) tr.

Definition is_submodule_step (ev : Event) : bool :=
  match ev with
  | Execa _ ("submodule" :: _) _ => true
  | _ => false
  end.

(** A scripted world for closed examples: the n-th child process fails
    when the n-th entry of [script] is [Some message]. *)
Definition scripted_processes (script : list (option string))
           (history : list Event) (file : string) (args : list string)
           (options : ExecaOptions) : option string :=
  nth (List.length (processes history)) script None.

(** The argument lists of the steps of [gitUpdate], in program order. *)
Definition update_steps (ctx : CloneContext) : list (list string) :=
  [["fetch"]; ["checkout"; branch ctx]; ["pull"];
   ["submodule"; "init"]; ["submodule"; "update"; "--recursive"]].

(** The effects of [gitUpdate] up to the check for the marker file, when
    fetch, checkout and pull succeed. *)
Definition history_before_marker (ctx : CloneContext) : list Event :=
  [SpinnerStart "🚒  Git fetch";
   Execa "git" ["fetch"] (mkOptions (templateTmpDirPath ctx) false);
   SpinnerSucceed;
   SpinnerStart ("🚛  Git checkout " ++ branch ctx);
   Execa "git" ["checkout"; branch ctx]
     (mkOptions (templateTmpDirPath ctx) false);
   SpinnerSucceed;
   SpinnerStart "🚀  Git pull";
   Execa "git" ["pull"] (mkOptions (templateTmpDirPath ctx) false)].

Definition sample_context : CloneContext :=
  mkContext "https://github.com/ant-design/pro-blocks" "pro-blocks" "master"
            "/tmp/blocks" "/tmp/blocks/pro-blocks".

Definition no_marker (history : list Event) (path : string) : bool := false.


(** ** Route tree *)

(** A route object of the configuration: an optional [path] and an
    optional nested [routes] array. *)
Inductive Route :=
  mkRoute {
    route_path : option string;
    route_routes : option (list Route)
  }.

Inductive RouteNode :=
  mkNode {
    title : string;
    value : string;
    key : string;
    children : list RouteNode
  }.

(** Truthiness of an optional string: [undefined] and [""] are falsy. *)
Definition truthy_string (o : option string) : bool :=
  match o with
  | Some s => negb (s =? "")
  | None => false
  end.

(** [.filter(item => item)] on an array of objects and [undefined]s. *)
Fixpoint filter_defined {A : Type} (l : list (option A)) : list A :=
  match l with
  | [] => []
  | Some a :: l' => a :: filter_defined l'
  | None :: l' => filter_defined l'
  end.

(** The callback of the [map] in [genRouterToTreeData]. *)
Fixpoint routeToNode (item : Route) : option RouteNode :=
  match item with
  | mkRoute path routes =>
      match path with
      | Some p =>
          if truthy_string path then
            Some (mkNode p p p
                    (match routes with
                     | Some rs => filter_defined (map routeToNode rs)
                     | None => filter_defined (map routeToNode [])
                     end))
          else None
      | None => None
      end
  end.

Definition genRouterToTreeData (routes : list Route) : list RouteNode :=
  filter_defined (map routeToNode routes).

(** *** Plain objects used as maps

    The own properties of an object in insertion order; a property may
    hold [undefined] ([None]). *)
Definition Obj : Type := list (string * option RouteNode).

Definition empty_object : Obj := [].

(** [o[k]]: [undefined] when [k] is not a property. *)
Fixpoint get (o : Obj) (k : string) : option RouteNode :=
  match o with
  | [] => None
  | (k', v) :: o' => if k' =? k then v else get o' k
  end.

(** [o[k] = v]: an existing property keeps its position. *)
Fixpoint set (o : Obj) (k : string) (v : option RouteNode) : Obj :=
  match o with
  | [] => [(k, v)]
  | (k', v') :: o' => if k' =? k then (k', v) :: o' else (k', v') :: set o' k v
  end.

(** The own property names, in insertion order. *)
Definition own_keys (o : Obj) : list string := map fst o.

(** [Object.prototype.hasOwnProperty]. *)
Definition has_own (o : Obj) (k : string) : bool :=
  existsb (String.eqb k) (own_keys o).

(** The value of a string of decimal digits. *)
Fixpoint digits_value (acc : N) (s : string) : option N :=
  match s with
  | EmptyString => Some acc
  | String c s' =>
      if is_digit c
      then digits_value (acc * 10 + (N_of_ascii c - 48))%N s'
      else None
  end.

(** An array index: the canonical decimal form of an integer from 0 to
    2^32 - 2. *)
Definition array_index (k : string) : option N :=
  match k with
  | EmptyString => None
  | String c rest =>
      if Ascii.eqb c "0" && negb (rest =? "") then None
      else match digits_value 0 k with
           | Some n => if (n <=? 4294967294)%N then Some n else None
           | None => None
           end
  end.

Definition is_array_index (k : string) : bool :=
  match array_index k with
  | Some _ => true
  | None => false
  end.

Definition index_value (k : string) : N :=
  match array_index k with
  | Some n => n
  | None => 0%N
  end.

(** Ascending numeric order of array-index keys. *)
Fixpoint insert_index (k : string) (sorted : list string) : list string :=
  match sorted with
  | [] => [k]
  | k' :: rest =>
      if (index_value k <=? index_value k')%N then k :: sorted
      else k' :: insert_index k rest
  end.

Definition sort_indices (ks : list string) : list string :=
  fold_right insert_index [] ks.

(** [Object.keys]: the array-index keys in ascending order, then the other
    keys in insertion order. *)
Definition Object_keys (o : Obj) : list string :=
  (sort_indices (filter is_array_index (own_keys o))
   ++ filter (fun k => negb (is_array_index k)) (own_keys o))%list.

Definition has_key (o : Obj) (k : string) : bool :=
  existsb (String.eqb k) (Object_keys o).

(** The own properties in the order of [Object.keys], as a spread copies
    them. *)
Definition own_entries (o : Obj) : Obj :=
  map (fun k => (k, get o k)) (Object_keys o).

(** [{ ...a, ...b }]: a fresh object receives the own properties of [a],
    then those of [b]. *)
Definition spread (a b : Obj) : Obj :=
  fold_left (fun o kv => set o (fst kv) (snd kv)) (own_entries b)
    (fold_left (fun o kv => set o (fst kv) (snd kv)) (own_entries a)
       empty_object).

Definition truthy {A : Type} (o : option A) : bool :=
  match o with
  | Some _ => true
  | None => false
  end.

(** The members every plain object inherits from [Object.prototype]; each
    of them is a function or an object, hence truthy. *)
Definition Object_prototype_members : list string :=
  ["constructor"; "__defineGetter__"; "__defineSetter__"; "hasOwnProperty";
   "__lookupGetter__"; "__lookupSetter__"; "isPrototypeOf";
   "propertyIsEnumerable"; "toString"; "valueOf"; "__proto__";
   "toLocaleString"].

Definition is_inherited (k : string) : bool :=
  existsb (String.eqb k) Object_prototype_members.

(** Truthiness of the value read by [o[k]]: the own property when there is
    one, otherwise the inherited member, otherwise [undefined]. *)
Definition read_truthy (o : Obj) (k : string) : bool :=
  if has_own o k then truthy (get o k) else is_inherited k.

(** The callback of the [reduce] in [reduceData]; of [router] only the
    truthiness is used.  The assignment [pre[current.key] = current] only
    runs for a key that reads as falsy, which no inherited name does (in
    particular not [__proto__]), so it creates or updates an own
    property. *)
Fixpoint reduceStep (pre : Obj) (current : RouteNode) {struct current} : Obj :=
  match current with
  | mkNode _ _ key children =>
      let router := read_truthy pre key in
      let childrenKeys := fold_left reduceStep children empty_object in
      let pre := if negb router then set pre key (Some current)
                 else pre in
      spread pre childrenKeys
  end.

Definition reduceData (treeData : list RouteNode) : Obj :=
  fold_left reduceStep treeData empty_object.

(** [key.split('/').filter(routerKey => routerKey)]. *)
Definition path_segments (key : string) : list string :=
  filter (fun routerKey => negb (routerKey =? "")) (split_on "/" key).

(** One iteration of the inner [forEach] of [depthRouterConfig]. *)
Definition synthesize_prefix (key : string) (array : list string)
           (routerConfig : Obj) (index : nat) : Obj :=
  let routerKey := array_join "/" (firstn index array) in
  if negb (routerKey =? "")
  then set routerConfig ("/" ++ routerKey) (get routerConfig key)
  else routerConfig.

(** The inner [forEach]: the prefix synthesis for one key. *)
Definition synthesize (key : string) (routerConfig : Obj) : Obj :=
  let array := path_segments key in
  fold_left (synthesize_prefix key array) (seq 0 (List.length array))
    routerConfig.

(** The callback of the outer [map]: it updates [routerConfig] and yields
    [routerConfig[key]]. *)
Definition expand_key (st : Obj * list (option RouteNode)) (key : string)
  : Obj * list (option RouteNode) :=
  let routerConfig := synthesize key (fst st) in
  (routerConfig, (snd st ++ [get routerConfig key])%list).

(** [depthRouterConfig] up to the final filter: the final [routerConfig]
    and the array produced by [map]. *)
Definition depthRouterConfig_map (routes : list Route)
  : Obj * list (option RouteNode) :=
  let routerConfig := reduceData (genRouterToTreeData routes) in
  fold_left expand_key (Object_keys routerConfig) (routerConfig, []).

(** [item && item.children && item.children.length]. *)
Definition has_children (item : option RouteNode) : bool :=
  match item with
  | Some node => negb (Nat.eqb (List.length (children node)) 0)
  | None => false
  end.

Definition depthRouterConfig (routes : list Route) : list RouteNode :=
  filter_defined (filter has_children (snd (depthRouterConfig_map routes))).

Definition routeExists (path : string) (routes : list Route) : bool :=
  let routerConfig := reduceData (genRouterToTreeData routes) in
  if read_truthy routerConfig path then true else false.

(** The keys written by the prefix synthesis for [key]: ["/" ++ p] for
    every strict non-empty prefix [p] of its segments. *)
Definition ancestor_keys (key : string) : list string :=
  map (fun index => "/" ++ array_join "/" (firstn index (path_segments key)))
      (seq 1 (List.length (path_segments key) - 1)).

(** No key is an ancestor key of a key listed before it. *)
Fixpoint ancestors_first (keys : list string) : bool :=
  match keys with
  | [] => true
  | k :: keys' =>
      forallb (fun k' => negb (existsb (String.eqb k') (ancestor_keys k)))
              keys'
      && ancestors_first keys'
  end.

(** The invariant the specification states for the prefix synthesis: a key
    that is present before the pass keeps its node. *)
Definition first_seen_wins (routes : list Route) : Prop :=
  forall k : string,
    In k (Object_keys (reduceData (genRouterToTreeData routes))) ->
    get (fst (depthRouterConfig_map routes)) k
    = get (reduceData (genRouterToTreeData routes)) k.

(** Sample routes. *)
Definition leaf_route (path : string) : Route := mkRoute (Some path) None.
Definition leaf_node (path : string) : RouteNode := mkNode path path path [].
Definition user_routes : list Route :=
  [mkRoute (Some "/user") (Some [leaf_route "/user/list"])].
Definition user_node : RouteNode :=
  mkNode "/user" "/user" "/user" [leaf_node "/user/list"].

(** The record [printBlocks] emits for a leaf of the tree. *)
Definition leafChoice (join : list string -> string) (cyan : string -> string)
           (terminalLink : string -> string -> string) (hasLink : bool)
           (leaf : list string * BlockDescriptor) : Choice :=
  blockChoice join cyan terminalLink hasLink (last (fst leaf) "") (snd leaf).

(** A visit of a well-formed descriptor appends the records of its leaves
    to [blockArray]. *)
Definition visit_adds_leaves (join : list string -> string)
           (cyan : string -> string)
           (terminalLink : string -> string -> string) (hasLink : bool)
           (block : BlockDescriptor) : Prop :=
  forall ancestors blockArray,
    well_formed block = true ->
    visitBlock join cyan terminalLink hasLink (last ancestors "") block
               blockArray
    = Ok (blockArray
            ++ map (leafChoice join cyan terminalLink hasLink)
                   (block_leaves ancestors block))%list.

(** The keys of a node and of all its descendants, parent first. *)
Fixpoint node_keys (node : RouteNode) : list string :=
  match node with
  | mkNode _ _ key children => key :: flat_map node_keys children
  end.

Definition tree_keys (treeData : list RouteNode) : list string :=
  flat_map node_keys treeData.

(** Every property of the object holds a node. *)
Definition all_defined (o : Obj) : Prop :=
  Forall (fun kv => truthy (snd kv) = true) o.

(** The callback of the two folds of [spread]. *)
Definition assign (o : Obj) (kv : string * option RouteNode) : Obj :=
  set o (fst kv) (snd kv).

(** The invariant of the objects built by [reduceData]: no key twice,
    every property holds a node. *)
Definition good_object (o : Obj) : Prop :=
  NoDup (own_keys o) /\ all_defined o.

(** [item.routes || []]. *)
Definition routes_or_empty (item : Route) : list Route :=
  match route_routes item with
  | Some rs => rs
  | None => []
  end.

(** The nodes one route contributes to the tree: none when its [path] is
    missing or empty, otherwise the node of that path over the tree of its
    nested routes. *)
Definition nodes_of_route (item : Route) : list RouteNode :=
  match route_path item with
  | Some p =>
      if p =? "" then []
      else [mkNode p p p (genRouterToTreeData (routes_or_empty item))]
  | None => []
  end.

(** The same as the specification words it: every route that has a [path]
    contributes a node. *)
Definition spec_nodes_of_route (item : Route) : list RouteNode :=
  match route_path item with
  | Some p => [mkNode p p p (genRouterToTreeData (routes_or_empty item))]
  | None => []
  end.

(** The characters of a list of segments, counting one separator per
    segment. *)
Definition weight (l : list string) : nat :=
  list_sum (map (fun seg => S (String.length seg)) l).

(** The keys one run of the inner [forEach] assigns, for the given
    indices. *)
Definition written_keys (array : list string) (indices : list nat)
  : list string :=
  flat_map (fun index =>
              let routerKey := array_join "/" (firstn index array) in
              if negb (routerKey =? "") then ["/" ++ routerKey] else [])
           indices.

(** ** Sample inputs *)

Definition block_leaf (path : string) : BlockDescriptor :=
  mkBlock "block" path None None.
Definition block_dir (path : string) (blocks : list BlockDescriptor)
  : BlockDescriptor :=
  mkBlock "dir" path None (Some blocks).

(** A block two directories deep. *)
Definition nested_blocks : list BlockDescriptor :=
  [block_dir "a" [block_dir "b" [block_leaf "c"]]].

(** The shape of the registry's list: directories of blocks. *)
Definition flat_blocks : list BlockDescriptor :=
  [block_dir "a" [block_leaf "c"; block_leaf "d"]; block_leaf "e"].

Definition plain (s : string) : string := s.
Definition no_link (text url : string) : string := text.

(** Two siblings with the key ["/x"]; the second has a child with that
    key too. *)
Definition first_sibling : RouteNode :=
  mkNode "/x" "/x" "/x" [leaf_node "/y"].
Definition second_sibling : RouteNode :=
  mkNode "/x" "/x" "/x" [leaf_node "/x"].
Definition duplicate_siblings : list RouteNode :=
  [first_sibling; second_sibling].

(** Two siblings with the key ["/x"] and no descendant with that key. *)
Definition plain_siblings : list RouteNode :=
  [first_sibling; mkNode "/x" "/x" "/x" [leaf_node "/z"]].



(** ** Shapes of the results of [genBlockName] *)

(** A token as it appears in the output: a non-empty run of lowercase
    letters or a non-empty run of digits. *)
Definition word_token (t : string) : bool :=
  negb (t =? "") && string_forallb is_lower t.
Definition digit_token (t : string) : bool :=
  negb (t =? "") && string_forallb is_digit t.
Definition clean_token (t : string) : bool := word_token t || digit_token t.

(** The characters of a generated name. *)
Definition name_char (c : ascii) : bool :=
  is_lower c || is_digit c || Ascii.eqb c "/".

(** A run of characters satisfying [p] cannot be continued into [r]. *)
Definition stops (p : ascii -> bool) (r : string) : bool :=
  match r with
  | String c _ => negb (p c)
  | EmptyString => true
  end.

(** ** Traversal of arbitrary descriptor trees *)

(** A directory without a [blocks] sequence, at a place the traversal
    reaches: only directories are entered. *)
Fixpoint broken_dir (block : BlockDescriptor) : bool :=
  match block with
  | mkBlock type _ _ blocks =>
      (type =? "dir")
      && match blocks with
         | Some bs => existsb broken_dir bs
         | None => true
         end
  end.

(** The descriptors of type ["block"] the traversal reaches, each with the
    paths of the directories entered on the way. *)
Fixpoint visited_leaves (ancestors : list string) (block : BlockDescriptor)
  : list (list string * BlockDescriptor) :=
  match block with
  | mkBlock type path _ blocks =>
      ((if type =? "block" then [(ancestors, block)] else [])
       ++ (if type =? "dir" then
             match blocks with
             | Some bs => flat_map (visited_leaves (ancestors ++ [path])) bs
             | None => []
             end
           else []))%list
  end.

(** The result of a visit, for any descriptor. *)
Definition visit_result (join : list string -> string)
           (cyan : string -> string)
           (terminalLink : string -> string -> string) (hasLink : bool)
           (block : BlockDescriptor) : Prop :=
  forall ancestors blockArray,
    visitBlock join cyan terminalLink hasLink (last ancestors "") block
               blockArray
    = if broken_dir block
      then Throw (TypeError "Cannot read property 'forEach' of undefined")
      else Ok (blockArray
                 ++ map (leafChoice join cyan terminalLink hasLink)
                        (visited_leaves ancestors block))%list.

(** ** Block registry: [getBlockListFromGit] *)

(** What [GitUrlParse] yields, as far as the code reads it. *)
Record GitUrl :=
  mkGitUrl {
    git_name : string;
    git_owner : string
  }.

(** An entry of the [tree] array of the hosting API. *)
Record TreeFile :=
  mkTreeFile {
    file_type : string;
    file_path : string
  }.

(** A generated block descriptor. *)
Record BlockInfo :=
  mkBlockInfo {
    info_url : string;
    info_type : string;
    info_path : string;
    info_isPage : bool;
    info_defaultPath : string;
    info_img : string;
    info_tags : list string;
    info_name : string;
    info_previewUrl : string
  }.

Definition ignoreFile : list string := ["_scripts"; "tests"].

(** [Array.prototype.includes] on strings. *)
Definition includes (l : list string) (s : string) : bool :=
  existsb (String.eqb s) l.

(** [s.indexOf('.') === 0]. *)
Definition starts_with_dot (s : string) : bool :=
  match s with
  | String c _ => Ascii.eqb c "."
  | EmptyString => false
  end.

(** The callback of the [filter]. *)
Definition keep_file (file : TreeFile) : bool :=
  (file_type file =? "tree")
  && negb (includes ignoreFile (file_path file))
  && negb (starts_with_dot (file_path file)).

(** The callback of the [map]; it throws when [genBlockName] does. *)
Definition blockOfPath (gitUrl path : string) : Result BlockInfo :=
  match genBlockName path with
  | Ok generated =>
      Ok (mkBlockInfo
            (gitUrl ++ "/tree/master/" ++ path)
            "block"
            path
            true
            ("/" ++ path)
            ("https://github.com/ant-design/pro-blocks/raw/master/"
               ++ path ++ "/snapshot.png")
            ["Ant Design Pro"]
            path
            ("https://preview.pro.ant.design/" ++ generated))
  | Throw e => Throw e
  end.

(** [Array.prototype.map] with a callback that may throw. *)
Fixpoint map_throwing {A B : Type} (f : A -> Result B) (l : list A)
  : Result (list B) :=
  match l with
  | [] => Ok []
  | a :: l' =>
      match f a with
      | Throw e => Throw e
      | Ok b =>
          match map_throwing f l' with
          | Throw e => Throw e
          | Ok bs => Ok (b :: bs)
          end
      end
  end.

(** The [filter] and [map] applied to the [tree] array. *)
Definition filesTree (gitUrl : string) (tree : list TreeFile)
  : Result (list BlockInfo) :=
  map_throwing (fun file => blockOfPath gitUrl (file_path file))
               (filter keep_file tree).

(** The effects of [getBlockListFromGit]: calls on the module's spinner
    and requests. *)
Inductive RegistryEvent :=
| LoadingSucceed
| LoadingStart (text : string)
| Got (url : string).

Definition registry_url : string :=
  "https://raw.githubusercontent.com/ant-design/pro-blocks/master/blockList.json".

Definition tree_url (parsed : GitUrl) : string :=
  "https://api.github.com/repos/" ++ git_owner parsed ++ "/"
    ++ git_name parsed ++ "/git/trees/master".

Definition is_registry (parsed : GitUrl) : bool :=
  (git_name parsed =? "pro-blocks") && (git_owner parsed =? "ant-design").

Section BlockRegistry.

(** [GitUrlParse], [chalk.yellow], [got] (the body of the response, or the
    error it rejects with, given the effects so far), [JSON.parse], and the
    reading of [.tree] off the parsed value (an error when there is no
    such array). *)
Variable GitUrlParse : string -> GitUrl.
Variable yellow : string -> string.
Variable Json : Type.
Variable got : list RegistryEvent -> string -> Result string.
Variable JSON_parse : string -> Result Json.
Variable json_tree : Json -> Result (list TreeFile).

(** What the call returns: the registry's list as parsed, or the list
    generated from the tree. *)
Inductive BlockList :=
| RegistryList (parsed : Json)
| GeneratedList (blocks : list BlockInfo).

Definition getBlockListFromGit (gitUrl : string) (tr : list RegistryEvent)
  : Result BlockList * list RegistryEvent :=
  let parsed := GitUrlParse gitUrl in
  let tr := (tr ++ [LoadingSucceed;
                    LoadingStart ("🔍  find block list form "
                                    ++ yellow gitUrl)])%list in
  if is_registry parsed then
    match got tr registry_url with
    | Throw e => (Throw e, (tr ++ [Got registry_url])%list)
    | Ok body =>
        let tr := (tr ++ [Got registry_url; LoadingSucceed])%list in
        match JSON_parse body with
        | Throw e => (Throw e, tr)
        | Ok list => (Ok (RegistryList list), tr)
        end
    end
  else
    match got tr (tree_url parsed) with
    | Throw e => (Throw e, (tr ++ [Got (tree_url parsed)])%list)
    | Ok body =>
        let tr := (tr ++ [Got (tree_url parsed)])%list in
        match JSON_parse body with
        | Throw e => (Throw e, tr)
        | Ok response =>
            match json_tree response with
            | Throw e => (Throw e, tr)
            | Ok tree =>
                match filesTree gitUrl tree with
                | Throw e => (Throw e, tr)
                | Ok blocks =>
                    (Ok (GeneratedList blocks), (tr ++ [LoadingSucceed])%list)
                end
            end
        end
    end.

End BlockRegistry.

Arguments RegistryList {Json} parsed.
Arguments GeneratedList {Json} blocks.

(** A directory the listing keeps and whose name yields no token. *)
Definition unnameable (file : TreeFile) : bool :=
  keep_file file && negb (matches_somewhere blockNamePattern (file_path file)).

(** The requests of a run. *)
Definition requests (tr : list RegistryEvent) : list string :=
  flat_map (fun ev => match ev with
                      | Got url => [url]
                      | _ => []
                      end) tr.

(** ** Shapes of the runs of [gitClone] and [gitUpdate] *)

(** The [execa] call of [gitClone]. *)
Definition clone_call (ctx : CloneContext) : Event :=
  Execa "git"
        ["clone"; repo ctx; id ctx; "--single-branch"; "--recurse-submodules";
         "-b"; branch ctx]
        (mkOptions (blocksTempPath ctx) true).

Definition clone_start (ctx : CloneContext) : Event :=
  SpinnerStart ("🔍  clone git repo from " ++ repo ctx).

(** The effects of [gitUpdate] after the marker file was found, when both
    submodule steps succeed. *)
Definition submodule_phase (ctx : CloneContext) : list Event :=
  [SpinnerSucceed;
   Execa "git" ["submodule"; "init"] (mkOptions (templateTmpDirPath ctx) true);
   SpinnerStart "👀  update submodule";
   Execa "git" ["submodule"; "update"; "--recursive"]
     (mkOptions (templateTmpDirPath ctx) false);
   SpinnerSucceed].

Definition always_marker (history : list Event) (path : string) : bool := true.

(** Where and how an effect of [gitUpdate] may act: every process is [git]
    run in the clone directory, [env] is only given to the step whose
    arguments start with ["submodule"; "init"], and the only file looked
    for is the marker. *)
Definition in_clone_directory (marker : string) (ctx : CloneContext)
           (ev : Event) : Prop :=
  match ev with
  | Execa file args options =>
      file = "git"
      /\ cwd options = templateTmpDirPath ctx
      /\ (env options = true -> args = ["submodule"; "init"])
  | ExistsSync path => path = marker
  | _ => True
  end.

(** ** Shapes of route trees *)

(** A node as [genRouterToTreeData] builds it: title, value and key are
    one non-empty path, at every depth. *)
Fixpoint path_node (node : RouteNode) : bool :=
  match node with
  | mkNode title value key children =>
      (title =? key) && (value =? key) && negb (key =? "")
      && forallb path_node children
  end.

(** The nodes of a tree, parent first. *)
Fixpoint node_nodes (node : RouteNode) : list RouteNode :=
  match node with
  | mkNode _ _ _ children => node :: flat_map node_nodes children
  end.

Definition tree_nodes (treeData : list RouteNode) : list RouteNode :=
  flat_map node_nodes treeData.

(** The properties holding the given nodes under their keys. *)
Definition entries (nodes : list RouteNode) : Obj :=
  map (fun node => (key node, Some node)) nodes.

(** A direct search of the route configuration: a route with a non-empty
    path is found under that path, and its nested routes are searched;
    nothing is searched below a route without one. *)
Fixpoint route_reachable (path : string) (item : Route) : bool :=
  match item with
  | mkRoute (Some p) routes =>
      negb (p =? "")
      && ((p =? path)
          || match routes with
             | Some rs => existsb (route_reachable path) rs
             | None => false
             end)
  | mkRoute None _ => false
  end.

(** Every binding of the object names a node of the list by its key. *)
Definition bindings_from (nodes : list RouteNode) (o : Obj) : Prop :=
  forall k n, get o k = Some n -> key n = k /\ In n nodes.

(** [item.children.length] is not zero. *)
Definition has_child (node : RouteNode) : bool :=
  negb (Nat.eqb (List.length (children node)) 0).

(** A configuration with distinct paths, parents before children. *)
Definition admin_routes : list Route :=
  [mkRoute (Some "/admin")
           (Some [mkRoute (Some "/admin/users")
                          (Some [leaf_route "/admin/users/new"]);
                  leaf_route "/admin/logs"]);
   leaf_route "/about"].

(** A world for closed examples of [getBlockListFromGit]: the network is
    down. *)
Definition parse_umi_blocks (gitUrl : string) : GitUrl :=
  mkGitUrl "umi-blocks" "umijs".
Definition offline (history : list RegistryEvent) (url : string)
  : Result string :=
  Throw (Error "getaddrinfo ENOTFOUND").
Definition no_json (body : string) : Result unit :=
  Throw (Error "Unexpected end of JSON input").
Definition no_tree (response : unit) : Result (list TreeFile) :=
  Throw (TypeError "Cannot read property 'filter' of undefined").

(** A key that is neither an array index nor the name of an inherited
    member: for such keys an object behaves as a plain ordered map. *)
Definition plain_key (k : string) : bool :=
  negb (is_array_index k) && negb (is_inherited k).

(** A configuration with an array-index path. *)
Definition numbered_routes : list Route :=
  [mkRoute (Some "b") (Some [leaf_route "c"]);
   mkRoute (Some "1") (Some [leaf_route "2"])].

(** * Properties *)

(** ** [genBlockName] *)

Section Tokens.

Variable p : ascii -> bool.

Lemma take_drop_while (s : string) :
  take_while p s ++ drop_while p s = s.
Proof.
  induction s as [|c s IH]; simpl; [reflexivity|].
  destruct (p c); simpl; [now rewrite IH | reflexivity].
Qed.

Lemma length_drop_while (s : string) :
  String.length (drop_while p s)
  = String.length s - String.length (take_while p s).
Proof.
  induction s as [|c s IH]; simpl; [reflexivity|].
  destruct (p c); simpl; [exact IH | reflexivity].
Qed.

Lemma length_take_while_le (s : string) :
  String.length (take_while p s) <= String.length s.
Proof.
  induction s as [|c s IH]; simpl; [lia|].
  destruct (p c); simpl; lia.
Qed.

Lemma substring_take_while (s : string) :
  substring 0 (String.length (take_while p s)) s = take_while p s.
Proof.
  induction s as [|c s IH]; simpl; [reflexivity|].
  destruct (p c); simpl; [now rewrite IH | reflexivity].
Qed.

(** A greedy [[..]+] followed by nothing consumes the whole run. *)
Lemma exec_plus_run (s : string) :
  exec_plus p s Some
  = match s with
    | String c s' => if p c then Some (drop_while p s') else None
    | EmptyString => None
    end.
Proof.
  induction s as [|c s IH]; simpl; [reflexivity|].
  destruct (p c); [|reflexivity].
  rewrite IH. destruct s as [|c' s']; simpl; [reflexivity|].
  destruct (p c'); reflexivity.
Qed.

(** The matched text of a run that starts at [c]. *)
Lemma matched_run (c : ascii) (s : string) :
  let n := String.length (String c s) - String.length (drop_while p s) in
  substring 0 n (String c s) = String c (take_while p s)
  /\ n - 1 = String.length (take_while p s).
Proof.
  pose proof (length_take_while_le s) as Hle.
  intros n. subst n. rewrite length_drop_while.
  replace (String.length (String c s)
           - (String.length s - String.length (take_while p s)))
    with (S (String.length (take_while p s)))
    by (cbn [String.length]; lia).
  split; [|lia].
  cbn [substring]. now rewrite substring_take_while.
Qed.

End Tokens.

Lemma take_while_empty (p : ascii -> bool) (s : string) :
  (take_while p s =? "") = match s with
                           | String c _ => negb (p c)
                           | EmptyString => true
                           end.
Proof.
  destruct s as [|c s]; simpl; [reflexivity|].
  destruct (p c); reflexivity.
Qed.

(** What one attempt of the pattern at the start of [s] consumes. *)
Lemma exec_blockNamePattern (s : string) :
  exec blockNamePattern s Some
  = match s with
    | EmptyString => None
    | String c s' =>
        if is_upper c && negb (take_while is_lower s' =? "")
        then Some (drop_while is_lower s')
        else if is_lower c then Some (drop_while is_lower s')
        else if is_digit c then Some (drop_while is_digit s')
        else None
    end.
Proof.
  destruct s as [|c s']; [reflexivity|].
  unfold blockNamePattern.
  cbn [exec]. rewrite !exec_plus_run, take_while_empty.
  destruct (is_upper c); cbn [andb].
  - destruct s' as [|c' s'']; cbn [negb].
    + destruct (is_lower c); [reflexivity|].
      destruct (is_digit c); reflexivity.
    + destruct (is_lower c') eqn:Hc'; cbn [negb].
      { cbn [drop_while]. now rewrite Hc'. }
      destruct (is_lower c); [reflexivity|].
      destruct (is_digit c); reflexivity.
  - destruct (is_lower c); [reflexivity|].
    destruct (is_digit c); reflexivity.
Qed.

Lemma match_global_spec_tokens (s : string) (skip : nat) :
  match_global blockNamePattern s skip = spec_tokens s skip.
Proof.
  revert skip. induction s as [|c s IH]; intros [|n];
    try reflexivity; [|apply IH].
  cbn [match_global spec_tokens]. rewrite exec_blockNamePattern.
  destruct (is_upper c && negb (take_while is_lower s =? "")).
  { destruct (matched_run is_lower c s) as [-> ->]. now rewrite IH. }
  destruct (is_lower c) eqn:Hlow.
  { destruct (matched_run is_lower c s) as [-> ->].
    rewrite IH. simpl. now rewrite Hlow. }
  destruct (is_digit c) eqn:Hdig.
  { destruct (matched_run is_digit c s) as [-> ->].
    rewrite IH. simpl. now rewrite Hdig. }
  apply IH.
Qed.

Lemma spec_tokens_none (s : string) (skip : nat) :
  string_forallb (fun c => negb (tokenizable c)) s = true ->
  spec_tokens s skip = [].
Proof.
  revert skip. induction s as [|c s IH]; intros skip H; [reflexivity|].
  simpl in H. apply andb_true_iff in H as [Hc Hs].
  unfold tokenizable in Hc. apply negb_true_iff, orb_false_iff in Hc.
  destruct Hc as [Hlow Hdig].
  destruct skip as [|n]; cbn [spec_tokens]; [|now apply IH].
  rewrite Hlow, Hdig, take_while_empty.
  assert (Hrun : match s with
                 | String c' _ => negb (is_lower c')
                 | EmptyString => true
                 end = true).
  { destruct s as [|c' s']; [reflexivity|].
    simpl in Hs. apply andb_true_iff in Hs as [Hc' _].
    unfold tokenizable in Hc'. apply negb_true_iff, orb_false_iff in Hc'.
    destruct Hc' as [-> _]. reflexivity. }
  rewrite Hrun, andb_false_r. now apply IH.
Qed.

Lemma spec_tokens_some (s : string) :
  string_forallb (fun c => negb (tokenizable c)) s = false ->
  spec_tokens s 0 <> [].
Proof.
  induction s as [|c s IH]; intros H; [discriminate|].
  cbn [spec_tokens].
  destruct (is_upper c && negb (take_while is_lower s =? "")); [discriminate|].
  destruct (is_lower c) eqn:Hlow; [discriminate|].
  destruct (is_digit c) eqn:Hdig; [discriminate|].
  apply IH. simpl in H. unfold tokenizable at 1 in H.
  now rewrite Hlow, Hdig in H.
Qed.

(** The pattern matches somewhere exactly when the string holds a
    lowercase letter or a digit. *)
Lemma matches_somewhere_tokenizable (s : string) :
  matches_somewhere blockNamePattern s
  = negb (string_forallb (fun c => negb (tokenizable c)) s).
Proof.
  induction s as [|c s IH]; [reflexivity|].
  cbn [matches_somewhere string_forallb].
  rewrite exec_blockNamePattern, IH, take_while_empty.
  change (tokenizable c) with (is_lower c || is_digit c).
  destruct (is_upper c && negb match s with
                               | String c' _ => negb (is_lower c')
                               | EmptyString => true
                               end) eqn:Hcap.
  - apply andb_true_iff in Hcap as [_ Hrun].
    destruct s as [|c' s']; [discriminate|].
    rewrite negb_involutive in Hrun.
    cbn [string_forallb].
    change (tokenizable c') with (is_lower c' || is_digit c').
    rewrite Hrun. cbn [orb negb andb]. now rewrite andb_false_r.
  - destruct (is_lower c); [reflexivity|].
    destruct (is_digit c); reflexivity.
Qed.


(** C10. When the input holds no match of the pattern (no lowercase run,
    with or without a leading capital, and no digit run), [genBlockName]
    throws a [TypeError] instead of returning a string; when it holds one,
    [genBlockName] returns a string. *)
Theorem genBlockName_partial (name : string) :
  (matches_somewhere blockNamePattern name = false ->
   string_forallb (fun c => negb (tokenizable c)) name = true
   /\ genBlockName name
      = Throw (TypeError "Cannot read property 'map' of null"))
  /\ (matches_somewhere blockNamePattern name = true ->
      exists out : string, genBlockName name = Ok out).
Proof.
  rewrite matches_somewhere_tokenizable. unfold genBlockName.
  rewrite match_global_spec_tokens. split; intros H.
  - apply negb_false_iff in H. split; [exact H|].
    now rewrite (spec_tokens_none name 0 H).
  - apply negb_true_iff, spec_tokens_some in H.
    destruct (spec_tokens name 0) as [|t ts]; [contradiction|].
    eexists. reflexivity.
Qed.

Lemma genBlockName_partial_witness :
  (string_forallb (fun c => negb (tokenizable c)) "-+!" = true
   /\ genBlockName "-+!"
      = Throw (TypeError "Cannot read property 'map' of null"))
  /\ genBlockName ""
     = Throw (TypeError "Cannot read property 'map' of null")
  /\ exists out : string, genBlockName "userV2" = Ok out.
Proof.
  split; [|split].
  - apply (proj1 (genBlockName_partial "-+!")). reflexivity.
  - apply (proj1 (genBlockName_partial "")). reflexivity.
  - apply (proj2 (genBlockName_partial "userV2")). reflexivity.
Defined.

(** ** [printBlocks] *)

(** Induction on descriptors through the nested [blocks] list. *)
Lemma BlockDescriptor_nested_ind (P : BlockDescriptor -> Prop) :
  (forall type path previewUrl, P (mkBlock type path previewUrl None)) ->
  (forall type path previewUrl bs,
      Forall P bs -> P (mkBlock type path previewUrl (Some bs))) ->
  forall block, P block.
Proof.
  intros Hleaf Hdir. fix IH 1. intros [type path previewUrl [bs|]].
  - apply Hdir. induction bs as [|b bs IHbs]; constructor; [apply IH | exact IHbs].
  - apply Hleaf.
Qed.

Lemma length_block_leaves (block : BlockDescriptor) :
  forall ancestors,
    List.length (block_leaves ancestors block) = count_blocks block.
Proof.
  induction block as [type path previewUrl | type path previewUrl bs IH]
    using BlockDescriptor_nested_ind; intros ancestors;
    cbn [block_leaves count_blocks]; rewrite length_app.
  - now destruct (type =? "block").
  - f_equal; [now destruct (type =? "block")|].
    induction IH as [|b bs Hb _ IHbs]; [reflexivity|].
    cbn [flat_map map list_sum]. now rewrite length_app, Hb, IHbs.
Qed.

Lemma length_flat_block_leaves (ancestors : list string)
      (blocks : list BlockDescriptor) :
  List.length (flat_map (block_leaves ancestors) blocks)
  = list_sum (map count_blocks blocks).
Proof.
  induction blocks as [|b bs IH]; [reflexivity|].
  cbn [flat_map map list_sum].
  now rewrite length_app, length_block_leaves, IH.
Qed.

Section PrintBlocksProperties.

Variable join : list string -> string.
Variable cyan : string -> string.
Variable terminalLink : string -> string -> string.
Variable hasLink : bool.

#[local] Abbreviation visit := (visitBlock join cyan terminalLink hasLink).
#[local] Abbreviation visit_ok := (visit_adds_leaves join cyan terminalLink hasLink).
#[local] Abbreviation leafChoice := (leafChoice join cyan terminalLink hasLink).

Lemma forEach_visit_ok (bs : list BlockDescriptor) :
  Forall visit_ok bs ->
  forall ancestors blockArray,
    forallb well_formed bs = true ->
    forEach (visit (last ancestors "")) bs blockArray
    = Ok (blockArray
            ++ map leafChoice (flat_map (block_leaves ancestors) bs))%list.
Proof.
  induction 1 as [|b bs Hb _ IH]; intros ancestors blockArray Hwf.
  - cbn. now rewrite app_nil_r.
  - cbn [forallb] in Hwf. apply andb_true_iff in Hwf as [Hwfb Hwfbs].
    cbn [forEach flat_map]. rewrite (Hb ancestors blockArray Hwfb).
    rewrite (IH ancestors _ Hwfbs), map_app, app_assoc. reflexivity.
Qed.

Lemma visitBlock_ok (block : BlockDescriptor) : visit_ok block.
Proof.
  induction block as [type path previewUrl | type path previewUrl bs IH]
    using BlockDescriptor_nested_ind; intros ancestors blockArray Hwf;
    cbn [well_formed] in Hwf; cbn [visitBlock block_leaves].
  - apply negb_true_iff in Hwf. rewrite Hwf, app_nil_r.
    destruct (type =? "block"); [reflexivity|].
    cbn [map]. now rewrite app_nil_r.
  - apply andb_true_iff in Hwf as [Hdir Hwf]. rewrite Hdir.
    apply String.eqb_eq in Hdir. subst type.
    change ("dir" =? "block") with false. cbv iota.
    pose proof (forEach_visit_ok bs IH (ancestors ++ [path]) blockArray Hwf)
      as Hloop.
    rewrite last_last in Hloop. exact Hloop.
Qed.

End PrintBlocksProperties.

(** C1 (as amended). For every well-formed tree of descriptors and every
    [hasLink], [printBlocks] returns one record per descriptor of type
    ["block"] in the tree, in depth-first order; the value and the key of a
    record are the path of the directory that directly encloses the block
    (the empty string at top level) joined with the block's own path. *)
Theorem printBlocks_leaves
        (join : list string -> string) (cyan : string -> string)
        (terminalLink : string -> string -> string) (hasLink : bool)
        (blocks : list BlockDescriptor) :
  forallb well_formed blocks = true ->
  exists blockArray : list Choice,
    printBlocks join cyan terminalLink hasLink blocks = Ok blockArray
    /\ List.length blockArray = list_sum (map count_blocks blocks)
    /\ map choice_value blockArray
       = map (parent_block_path join) (flat_map (block_leaves []) blocks)
    /\ map choice_key blockArray = map choice_value blockArray.
Proof.
  intros Hwf.
  exists (map (leafChoice join cyan terminalLink hasLink)
              (flat_map (block_leaves []) blocks)).
  split; [|split; [|split]].
  - unfold printBlocks, loopBlocks.
    apply (forEach_visit_ok join cyan terminalLink hasLink blocks)
      with (ancestors := []) (blockArray := []); [|exact Hwf].
    apply Forall_forall. intros b _. apply visitBlock_ok.
  - now rewrite length_map, length_flat_block_leaves.
  - rewrite map_map. reflexivity.
  - rewrite !map_map. reflexivity.
Qed.

Lemma printBlocks_leaves_witness :
  exists blockArray : list Choice,
    printBlocks posix_join plain no_link true flat_blocks = Ok blockArray
    /\ List.length blockArray = list_sum (map count_blocks flat_blocks)
    /\ map choice_value blockArray
       = map (parent_block_path posix_join)
             (flat_map (block_leaves []) flat_blocks)
    /\ map choice_key blockArray = map choice_value blockArray.
Proof.
  apply (printBlocks_leaves posix_join plain no_link true flat_blocks).
  reflexivity.
Defined.

(** C1 as stated fails: for a block two directories deep the record holds
    the inner directory joined with the block's path, not all ancestors. *)
Lemma printBlocks_nested_counterexample :
  exists blockArray : list Choice,
    printBlocks posix_join plain no_link false nested_blocks = Ok blockArray
    /\ map choice_value blockArray = ["b/c"]
    /\ map (spec_block_path posix_join)
           (flat_map (block_leaves []) nested_blocks) = ["a/b/c"]
    /\ map choice_value blockArray
       <> map (spec_block_path posix_join)
              (flat_map (block_leaves []) nested_blocks).
Proof.
  eexists. split; [reflexivity|].
  split; [reflexivity|]. split; [reflexivity|]. discriminate.
Qed.

(** ** Objects used as maps *)

Lemma get_set_same (o : Obj) (k : string) (v : option RouteNode) :
  get (set o k v) k = v.
Proof.
  induction o as [|[k' v'] o IH]; cbn [set get].
  - now rewrite String.eqb_refl.
  - destruct (k' =? k) eqn:E; cbn [get]; rewrite E; [reflexivity | exact IH].
Qed.

Lemma get_set_other (o : Obj) (k k' : string) (v : option RouteNode) :
  k <> k' -> get (set o k v) k' = get o k'.
Proof.
  intros Hne. induction o as [|[k0 v0] o IH]; cbn [set get].
  - apply String.eqb_neq in Hne. now rewrite Hne.
  - destruct (k0 =? k) eqn:E; cbn [get]; [|now rewrite IH].
    apply String.eqb_eq in E. subst k0.
    apply String.eqb_neq in Hne. now rewrite Hne.
Qed.

Lemma get_not_key (o : Obj) (k : string) :
  ~ In k (own_keys o) -> get o k = None.
Proof.
  induction o as [|[k' v'] o IH]; intros Hnot; cbn [get]; [reflexivity|].
  destruct (k' =? k) eqn:E.
  - apply String.eqb_eq in E. subst k'. exfalso. apply Hnot. now left.
  - apply IH. intros Hin. apply Hnot. now right.
Qed.

Lemma get_defined_key (o : Obj) (k : string) (n : RouteNode) :
  get o k = Some n -> In k (own_keys o).
Proof.
  intros Hget. destruct (in_dec string_dec k (own_keys o)) as [Hin|Hnot];
    [exact Hin|].
  rewrite (get_not_key o k Hnot) in Hget. discriminate.
Qed.

Lemma get_key_defined (o : Obj) (k : string) :
  all_defined o -> In k (own_keys o) -> truthy (get o k) = true.
Proof.
  intros Hall. induction Hall as [|[k' v'] o Hv _ IH]; intros Hin;
    [contradiction|].
  cbn [get]. destruct (k' =? k) eqn:E; [exact Hv|].
  destruct Hin as [Heq|Hin]; [|now apply IH].
  cbn in Heq. subst k'. now rewrite String.eqb_refl in E.
Qed.

Lemma set_not_key (o : Obj) (k : string) (v : option RouteNode) :
  ~ In k (own_keys o) -> set o k v = (o ++ [(k, v)])%list.
Proof.
  induction o as [|[k' v'] o IH]; intros Hnot; cbn [set]; [reflexivity|].
  destruct (k' =? k) eqn:E.
  - apply String.eqb_eq in E. subst k'. exfalso. apply Hnot. now left.
  - cbn [app]. rewrite IH; [reflexivity|].
    intros Hin. apply Hnot. now right.
Qed.

Lemma keys_set (o : Obj) (k k' : string) (v : option RouteNode) :
  In k' (own_keys (set o k v)) <-> k' = k \/ In k' (own_keys o).
Proof.
  induction o as [|[k0 v0] o IH]; cbn [set own_keys map fst In].
  - intuition congruence.
  - destruct (k0 =? k) eqn:E; cbn [own_keys map fst In].
    + apply String.eqb_eq in E. subst k0. intuition congruence.
    + unfold own_keys in IH. rewrite IH. intuition congruence.
Qed.

Lemma NoDup_keys_set (o : Obj) (k : string) (v : option RouteNode) :
  NoDup (own_keys o) -> NoDup (own_keys (set o k v)).
Proof.
  induction o as [|[k0 v0] o IH]; intros Hnd; cbn [set own_keys map fst].
  - constructor; [intros [] | constructor].
  - inversion Hnd as [|? ? Hnot Hnd']; subst.
    destruct (k0 =? k) eqn:E; cbn [own_keys map fst].
    + constructor; assumption.
    + constructor; [|now apply IH].
      intros Hin. apply keys_set in Hin as [Heq|Hin]; [|now apply Hnot].
      subst k0. now rewrite String.eqb_refl in E.
Qed.

Lemma all_defined_set (o : Obj) (k : string) (n : RouteNode) :
  all_defined o -> all_defined (set o k (Some n)).
Proof.
  intros Hall. induction Hall as [|[k' v'] o Hv Ho IH]; cbn [set].
  - constructor; [reflexivity | constructor].
  - destruct (k' =? k); constructor; try assumption. reflexivity.
Qed.

(** Copying the properties of an object into a fresh one gives the same
    properties in the same order. *)
Lemma assign_all_fresh (l acc : Obj) :
  NoDup (own_keys (acc ++ l)%list) -> fold_left assign l acc = (acc ++ l)%list.
Proof.
  revert acc. induction l as [|[k v] l IH]; intros acc Hnd; cbn [fold_left].
  - now rewrite app_nil_r.
  - unfold assign at 2. cbn [fst snd].
    assert (Hnot : ~ In k (own_keys acc)).
    { unfold own_keys in *. rewrite map_app in Hnd. cbn [map fst] in Hnd.
      apply NoDup_remove_2 in Hnd. intros Hin. apply Hnd.
      apply in_or_app. now left. }
    rewrite (set_not_key acc k v Hnot), IH, <- app_assoc; [reflexivity|].
    now rewrite <- app_assoc.
Qed.

Section AssignAll.

Variable b : Obj.

Lemma get_assign_all_other (k : string) :
  ~ In k (own_keys b) ->
  forall a, get (fold_left assign b a) k = get a k.
Proof.
  induction b as [|[k' v'] b' IH]; intros Hnot a; cbn [fold_left];
    [reflexivity|].
  rewrite IH; [|intros Hin; apply Hnot; now right].
  apply get_set_other. intros Heq. apply Hnot. now left.
Qed.

Lemma keys_assign_all (k : string) :
  forall a, In k (own_keys (fold_left assign b a))
            <-> In k (own_keys a) \/ In k (own_keys b).
Proof.
  induction b as [|[k' v'] b' IH]; intros a; cbn [fold_left].
  - cbn. tauto.
  - rewrite IH. unfold assign. cbn [fst snd]. rewrite keys_set.
    cbn [own_keys map fst In]. unfold own_keys. intuition congruence.
Qed.

Lemma NoDup_assign_all :
  forall a, NoDup (own_keys a) -> NoDup (own_keys (fold_left assign b a)).
Proof.
  induction b as [|[k' v'] b' IH]; intros a Hnd; cbn [fold_left];
    [exact Hnd|].
  apply IH. now apply NoDup_keys_set.
Qed.

Lemma all_defined_assign_all :
  all_defined b ->
  forall a, all_defined a -> all_defined (fold_left assign b a).
Proof.
  intros Hb. induction Hb as [|[k' v'] b' Hv _ IH]; intros a Ha;
    cbn [fold_left]; [exact Ha|].
  apply IH. unfold assign. cbn [fst snd] in *.
  destruct v' as [n|]; [|discriminate]. now apply all_defined_set.
Qed.

End AssignAll.

Lemma get_assign_all_key (b : Obj) (k : string) :
  NoDup (own_keys b) -> In k (own_keys b) ->
  forall a, get (fold_left assign b a) k = get b k.
Proof.
  induction b as [|[k' v'] b IH]; intros Hnd Hin a; [contradiction|].
  cbn [own_keys map fst] in Hnd, Hin.
  inversion Hnd as [|? ? Hnot Hnd']; subst.
  cbn [fold_left get]. unfold assign at 2. cbn [fst snd].
  destruct (k' =? k) eqn:E.
  - apply String.eqb_eq in E. subst k'.
    rewrite (get_assign_all_other b k Hnot). apply get_set_same.
  - destruct Hin as [Heq|Hin]; [subst; now rewrite String.eqb_refl in E|].
    now apply IH.
Qed.

(** *** The order of [Object.keys] *)

Lemma insert_index_permutation (k : string) (sorted : list string) :
  Permutation (insert_index k sorted) (k :: sorted).
Proof.
  induction sorted as [|k' rest IH]; cbn [insert_index]; [reflexivity|].
  destruct (index_value k <=? index_value k')%N; [reflexivity|].
  rewrite IH. apply perm_swap.
Qed.

Lemma sort_indices_permutation (ks : list string) :
  Permutation (sort_indices ks) ks.
Proof.
  induction ks as [|k ks IH]; [reflexivity|].
  cbn [sort_indices fold_right]. fold (sort_indices ks).
  now rewrite insert_index_permutation, IH.
Qed.

Lemma filter_partition_permutation {A : Type} (p : A -> bool) (l : list A) :
  Permutation (filter p l ++ filter (fun a => negb (p a)) l) l.
Proof.
  induction l as [|a l IH]; [reflexivity|].
  cbn [filter]. destruct (p a); cbn [negb app].
  - now rewrite IH.
  - rewrite <- Permutation_middle. now rewrite IH.
Qed.

Lemma Object_keys_permutation (o : Obj) :
  Permutation (Object_keys o) (own_keys o).
Proof.
  unfold Object_keys. rewrite sort_indices_permutation.
  apply filter_partition_permutation.
Qed.

Lemma In_Object_keys (o : Obj) (k : string) :
  In k (Object_keys o) <-> In k (own_keys o).
Proof.
  split; apply Permutation_in;
    [|symmetry]; apply Object_keys_permutation.
Qed.

Lemma NoDup_Object_keys (o : Obj) :
  NoDup (own_keys o) -> NoDup (Object_keys o).
Proof.
  apply Permutation_NoDup. symmetry. apply Object_keys_permutation.
Qed.

(** Without array-index keys, [Object.keys] is the insertion order. *)
Lemma Object_keys_plain (o : Obj) :
  forallb (fun k => negb (is_array_index k)) (own_keys o) = true ->
  Object_keys o = own_keys o.
Proof.
  unfold Object_keys. generalize (own_keys o). intros ks Hplain.
  induction ks as [|k ks IH]; [reflexivity|].
  cbn [forallb] in Hplain. apply andb_true_iff in Hplain as [Hk Hks].
  cbn [filter]. rewrite Hk. apply negb_true_iff in Hk. rewrite Hk.
  cbn [app]. specialize (IH Hks).
  destruct (filter is_array_index ks) as [|k' ks'] eqn:Hfilter.
  - cbn [sort_indices fold_right app] in *. now rewrite IH.
  - exfalso.
    assert (Hin : In k' (filter is_array_index ks))
      by (rewrite Hfilter; now left).
    apply filter_In in Hin as [Hin Hindex].
    rewrite forallb_forall in Hks. specialize (Hks k' Hin).
    now rewrite Hindex in Hks.
Qed.

(** *** Copies and spreads *)

Lemma own_keys_entries (o : Obj) : own_keys (own_entries o) = Object_keys o.
Proof.
  unfold own_entries, own_keys. rewrite map_map. cbn [fst]. apply map_id.
Qed.

Lemma get_listed (f : string -> option RouteNode) (ks : list string)
      (k : string) :
  get (map (fun k => (k, f k)) ks) k = if in_dec string_dec k ks then f k
                                       else None.
Proof.
  induction ks as [|k' ks IH]; [reflexivity|].
  cbn [map get]. destruct (k' =? k) eqn:E.
  - apply String.eqb_eq in E. subst k'.
    destruct (in_dec string_dec k (k :: ks)) as [_|Hnot]; [reflexivity|].
    exfalso. apply Hnot. now left.
  - rewrite IH. apply String.eqb_neq in E.
    destruct (in_dec string_dec k ks) as [Hin|Hnot];
      destruct (in_dec string_dec k (k' :: ks)) as [Hin'|Hnot'];
      try reflexivity.
    + exfalso. apply Hnot'. now right.
    + destruct Hin' as [Heq|Hin']; [contradiction | contradiction].
Qed.

Lemma get_own_entries (o : Obj) (k : string) :
  get (own_entries o) k = get o k.
Proof.
  unfold own_entries. rewrite get_listed.
  destruct (in_dec string_dec k (Object_keys o)) as [_|Hnot]; [reflexivity|].
  symmetry. apply get_not_key. now rewrite <- In_Object_keys.
Qed.

Lemma all_defined_own_entries (o : Obj) :
  all_defined o -> all_defined (own_entries o).
Proof.
  intros Hall. unfold all_defined, own_entries.
  apply Forall_map, Forall_forall. intros k Hk. cbn [snd].
  apply get_key_defined; [exact Hall | now apply In_Object_keys].
Qed.

(** A copy made from the empty object has the properties it was given. *)
Lemma copy_entries (l : Obj) :
  NoDup (own_keys l) -> fold_left assign l empty_object = l.
Proof.
  intros Hnd. now rewrite (assign_all_fresh l empty_object Hnd).
Qed.

Lemma spread_fold (a b : Obj) :
  NoDup (own_keys a) ->
  spread a b = fold_left assign (own_entries b) (own_entries a).
Proof.
  intros Hnd. unfold spread. fold assign.
  rewrite (copy_entries (own_entries a)); [reflexivity|].
  rewrite own_keys_entries. now apply NoDup_Object_keys.
Qed.

Section Spread.

Variables a b : Obj.
Hypothesis Ha : NoDup (own_keys a).
Hypothesis Hb : NoDup (own_keys b).

Lemma get_spread_other (k : string) :
  ~ In k (own_keys b) -> get (spread a b) k = get a k.
Proof.
  intros Hnot. rewrite (spread_fold a b Ha), get_assign_all_other.
  - apply get_own_entries.
  - now rewrite own_keys_entries, In_Object_keys.
Qed.

Lemma get_spread_key (k : string) :
  In k (own_keys b) -> get (spread a b) k = get b k.
Proof.
  intros Hin. rewrite (spread_fold a b Ha), get_assign_all_key.
  - apply get_own_entries.
  - rewrite own_keys_entries. now apply NoDup_Object_keys.
  - now rewrite own_keys_entries, In_Object_keys.
Qed.

Lemma keys_spread (k : string) :
  In k (own_keys (spread a b)) <-> In k (own_keys a) \/ In k (own_keys b).
Proof.
  rewrite (spread_fold a b Ha), keys_assign_all, !own_keys_entries,
    !In_Object_keys. tauto.
Qed.

Lemma NoDup_spread : NoDup (own_keys (spread a b)).
Proof.
  rewrite (spread_fold a b Ha). apply NoDup_assign_all.
  rewrite own_keys_entries. now apply NoDup_Object_keys.
Qed.

Lemma all_defined_spread :
  all_defined a -> all_defined b -> all_defined (spread a b).
Proof.
  intros Hall Hall'. rewrite (spread_fold a b Ha).
  apply all_defined_assign_all; now apply all_defined_own_entries.
Qed.

End Spread.

(** *** Reads that see the prototype *)

Lemma has_own_In (o : Obj) (k : string) :
  has_own o k = true <-> In k (own_keys o).
Proof.
  unfold has_own. rewrite existsb_exists. split.
  - intros (k' & Hin & Heq). apply String.eqb_eq in Heq. now subst.
  - intros Hin. exists k. split; [exact Hin | apply String.eqb_refl].
Qed.

Lemma has_own_false (o : Obj) (k : string) :
  has_own o k = false <-> ~ In k (own_keys o).
Proof.
  rewrite <- has_own_In. destruct (has_own o k); intuition congruence.
Qed.

(** For a name that is not inherited, a read sees the own property. *)
Lemma read_truthy_plain (o : Obj) (k : string) :
  is_inherited k = false -> read_truthy o k = truthy (get o k).
Proof.
  intros Hk. unfold read_truthy. rewrite Hk.
  destruct (has_own o k) eqn:Hown; [reflexivity|].
  apply has_own_false in Hown. now rewrite (get_not_key o k Hown).
Qed.

(** When every own property holds a node, a read is truthy for the own
    keys and for the inherited names. *)
Lemma read_truthy_defined (o : Obj) (k : string) :
  all_defined o -> read_truthy o k = has_own o k || is_inherited k.
Proof.
  intros Hall. unfold read_truthy.
  destruct (has_own o k) eqn:Hown; [|reflexivity].
  apply has_own_In in Hown. now rewrite (get_key_defined o k Hall Hown).
Qed.

(** ** [reduceData] *)

Lemma RouteNode_nested_ind (P : RouteNode -> Prop) :
  (forall title value key children,
      Forall P children -> P (mkNode title value key children)) ->
  forall node, P node.
Proof.
  intros Hnode. fix IH 1. intros [title value key children].
  apply Hnode. induction children as [|n ns IHns]; constructor;
    [apply IH | exact IHns].
Qed.

Lemma reduceStep_eq (pre : Obj) (title value key : string)
      (children : list RouteNode) :
  reduceStep pre (mkNode title value key children)
  = spread (if negb (read_truthy pre key)
            then set pre key (Some (mkNode title value key children))
            else pre)
           (reduceData children).
Proof. reflexivity. Qed.

(** An invariant of every step is an invariant of the fold. *)
Lemma fold_reduceStep_invariant (Q : Obj -> Prop) (nodes : list RouteNode) :
  Forall (fun n => forall pre, Q pre -> Q (reduceStep pre n)) nodes ->
  forall pre, Q pre -> Q (fold_left reduceStep nodes pre).
Proof.
  induction 1 as [|n ns Hn _ IH]; intros pre Hpre; cbn [fold_left];
    [exact Hpre|].
  apply IH, Hn, Hpre.
Qed.

Lemma good_empty : good_object empty_object.
Proof. split; constructor. Qed.

(** The object the guarded assignment leaves. *)
Lemma guarded_set_good (pre : Obj) (k : string) (node : RouteNode) :
  good_object pre ->
  good_object (if negb (read_truthy pre k) then set pre k (Some node)
               else pre).
Proof.
  intros [Hnd Hall]. destruct (negb (read_truthy pre k)); split;
    try assumption; [now apply NoDup_keys_set | now apply all_defined_set].
Qed.

Lemma reduceStep_good (node : RouteNode) :
  forall pre, good_object pre -> good_object (reduceStep pre node).
Proof.
  induction node as [title value key children IH] using RouteNode_nested_ind.
  intros pre Hgood. rewrite reduceStep_eq.
  pose proof (fold_reduceStep_invariant good_object children IH
                empty_object good_empty) as [Hkidsnd Hkids].
  fold (reduceData children) in Hkids, Hkidsnd.
  destruct (guarded_set_good pre key (mkNode title value key children) Hgood)
    as [Hnd' Hall'].
  split.
  - now apply NoDup_spread.
  - now apply all_defined_spread.
Qed.

Lemma reduceData_good (treeData : list RouteNode) :
  good_object (reduceData treeData).
Proof.
  unfold reduceData.
  apply fold_reduceStep_invariant; [|exact good_empty].
  apply Forall_forall. intros n _. apply reduceStep_good.
Qed.

Lemma fold_reduceStep_good (nodes : list RouteNode) (pre : Obj) :
  good_object pre -> good_object (fold_left reduceStep nodes pre).
Proof.
  apply fold_reduceStep_invariant.
  apply Forall_forall. intros n _. apply reduceStep_good.
Qed.

(** The keys after a step: those before it and those of the node's
    subtree that are not names of inherited members. *)
Lemma keys_reduceStep (node : RouteNode) :
  forall pre k,
    good_object pre ->
    In k (own_keys (reduceStep pre node))
    <-> In k (own_keys pre)
        \/ (In k (node_keys node) /\ is_inherited k = false).
Proof.
  induction node as [title value key children IH] using RouteNode_nested_ind.
  intros pre k Hgood. rewrite reduceStep_eq.
  assert (Hkids : forall acc, good_object acc ->
            In k (own_keys (fold_left reduceStep children acc))
            <-> In k (own_keys acc)
                \/ (In k (tree_keys children) /\ is_inherited k = false)).
  { clear Hgood pre. induction IH as [|n ns Hn _ IHns]; intros acc Hacc;
      cbn [fold_left tree_keys flat_map In]; [tauto|].
    rewrite IHns by now apply reduceStep_good.
    rewrite (Hn acc k Hacc), in_app_iff. unfold tree_keys. tauto. }
  pose proof (guarded_set_good pre key (mkNode title value key children)
                Hgood) as [Hnd' _].
  rewrite keys_spread by exact Hnd'.
  unfold reduceData. rewrite (Hkids empty_object good_empty).
  cbn [node_keys In empty_object own_keys map].
  fold (tree_keys children).
  rewrite (read_truthy_defined pre key (proj2 Hgood)).
  destruct (has_own pre key) eqn:Hown; cbn [orb negb].
  - apply has_own_In in Hown. intuition (subst; auto).
  - destruct (is_inherited key) eqn:Hinh; cbn [negb].
    + intuition (subst; auto; congruence).
    + rewrite keys_set. intuition (subst; auto).
Qed.

Lemma keys_reduceData (treeData : list RouteNode) (k : string) :
  In k (own_keys (reduceData treeData))
  <-> In k (tree_keys treeData) /\ is_inherited k = false.
Proof.
  unfold reduceData.
  assert (H : forall acc, good_object acc ->
            In k (own_keys (fold_left reduceStep treeData acc))
            <-> In k (own_keys acc)
                \/ (In k (tree_keys treeData) /\ is_inherited k = false)).
  { induction treeData as [|n ns IH]; intros acc Hacc;
      cbn [fold_left tree_keys flat_map In]; [tauto|].
    rewrite IH by now apply reduceStep_good.
    rewrite keys_reduceStep by assumption.
    rewrite in_app_iff. unfold tree_keys. tauto. }
  rewrite (H empty_object good_empty). cbn. tauto.
Qed.

(** The binding of [k] after a step, when no descendant of the node
    carries [k]. *)
Lemma get_reduceStep (pre : Obj) (node : RouteNode) (k : string) :
  good_object pre ->
  ~ In k (tree_keys (children node)) ->
  get (reduceStep pre node) k
  = if key node =? k
    then (if read_truthy pre k then get pre k else Some node)
    else get pre k.
Proof.
  intros Hgood Hdesc. destruct node as [t v nk kids].
  cbn [children key] in *. rewrite reduceStep_eq.
  pose proof (guarded_set_good pre nk (mkNode t v nk kids) Hgood)
    as [Hnd' _].
  rewrite get_spread_other;
    [|exact Hnd'|rewrite keys_reduceData; tauto].
  destruct (nk =? k) eqn:E.
  - apply String.eqb_eq in E. subst k.
    destruct (read_truthy pre nk); cbn [negb];
      [reflexivity | apply get_set_same].
  - apply String.eqb_neq in E.
    destruct (read_truthy pre nk); cbn [negb];
      [reflexivity | now apply get_set_other].
Qed.

Section FoldReduceStep.

Variable k : string.

(** Nodes whose subtrees do not carry [k] leave its binding alone. *)
Lemma get_fold_reduceStep_absent (nodes : list RouteNode) :
  forall pre,
    good_object pre ->
    (forall n, In n nodes -> ~ In k (node_keys n)) ->
    get (fold_left reduceStep nodes pre) k = get pre k.
Proof.
  induction nodes as [|n ns IH]; intros pre Hgood Hnodes; cbn [fold_left];
    [reflexivity|].
  assert (Hn : ~ In k (node_keys n)) by (apply Hnodes; now left).
  destruct n as [t v nk kids]. cbn [node_keys In] in Hn.
  rewrite IH; [|now apply reduceStep_good|intros n Hin; apply Hnodes; now right].
  rewrite get_reduceStep; [|exact Hgood|cbn [children]; tauto].
  cbn [key]. destruct (nk =? k) eqn:E; [|reflexivity].
  apply String.eqb_eq in E. tauto.
Qed.

(** Once [k] is bound, nodes without a descendant carrying [k] keep the
    binding, whatever their own keys. *)
Lemma get_fold_reduceStep_kept (nodes : list RouteNode) :
  forall pre node,
    good_object pre ->
    get pre k = Some node ->
    (forall n, In n nodes -> ~ In k (tree_keys (children n))) ->
    get (fold_left reduceStep nodes pre) k = Some node.
Proof.
  induction nodes as [|n ns IH]; intros pre node Hgood Hget Hnodes;
    cbn [fold_left]; [exact Hget|].
  apply IH; [now apply reduceStep_good| |intros m Hin; apply Hnodes; now right].
  rewrite get_reduceStep; [|exact Hgood|apply Hnodes; now left].
  assert (Hread : read_truthy pre k = true).
  { unfold read_truthy.
    assert (Hown : has_own pre k = true)
      by (apply has_own_In; eapply get_defined_key, Hget).
    now rewrite Hown, Hget. }
  rewrite Hread, Hget. now destruct (key n =? k).
Qed.

End FoldReduceStep.

(** C5 (as amended). When a sequence of nodes holds two siblings with the
    same key, no node of the sequence has a descendant with that key, and
    the key is not the name of a member inherited from [Object.prototype],
    [reduceData] binds the key to the first sibling carrying it. *)
Theorem reduceData_first_sibling_wins
        (before between after : list RouteNode) (first second : RouteNode)
        (k : string) :
  key first = k ->
  key second = k ->
  is_inherited k = false ->
  (forall n, In n before -> key n <> k) ->
  (forall n, In n (before ++ first :: between ++ second :: after)%list ->
             ~ In k (tree_keys (children n))) ->
  get (reduceData (before ++ first :: between ++ second :: after)%list) k
  = Some first.
Proof.
  intros Hfirst _ Hplain Hbefore Hdesc. unfold reduceData.
  rewrite fold_left_app. cbn [fold_left].
  apply get_fold_reduceStep_kept.
  - apply reduceStep_good, fold_reduceStep_good, good_empty.
  - rewrite get_reduceStep.
    + rewrite Hfirst, String.eqb_refl, (read_truthy_plain _ k Hplain).
      rewrite get_fold_reduceStep_absent.
      * reflexivity.
      * exact good_empty.
      * intros n Hin Hk. destruct n as [t v nk kids].
        cbn [node_keys In] in Hk. destruct Hk as [Hk|Hk].
        -- apply (Hbefore _ Hin). exact Hk.
        -- apply (Hdesc (mkNode t v nk kids));
             [apply in_or_app; now left | exact Hk].
    + apply fold_reduceStep_good, good_empty.
    + apply Hdesc, in_or_app. right. now left.
  - intros n Hin. apply Hdesc, in_or_app. right. now right.
Qed.

Lemma reduceData_first_sibling_wins_witness :
  get (reduceData plain_siblings) "/x" = Some first_sibling.
Proof.
  apply (reduceData_first_sibling_wins
           [] [] [] first_sibling (mkNode "/x" "/x" "/x" [leaf_node "/z"])
           "/x").
  - reflexivity.
  - reflexivity.
  - reflexivity.
  - intros n [].
  - intros n [<-|[<-|[]]]; cbn; intuition discriminate.
Defined.

(** C5 as stated fails: a child of the second sibling with the same key
    replaces the first sibling's node. *)
Lemma reduceData_duplicate_counterexample :
  key first_sibling = key second_sibling
  /\ get (reduceData duplicate_siblings) "/x" = Some (leaf_node "/x")
  /\ get (reduceData duplicate_siblings) "/x" <> Some first_sibling.
Proof.
  split; [reflexivity|]. split; [reflexivity|]. discriminate.
Qed.

(** ** [genRouterToTreeData] *)

Lemma routeToNode_nodes (item : Route) :
  match routeToNode item with
  | Some node => [node]
  | None => []
  end = nodes_of_route item.
Proof.
  destruct item as [[p|] [rs|]]; cbn; try reflexivity;
    destruct (p =? ""); reflexivity.
Qed.

(** C7 (as amended). [genRouterToTreeData] omits every entry whose [path]
    is missing or the empty string, together with its nested routes; every
    other entry yields exactly one node, whose title, value and key are the
    path and whose children are computed from its nested routes (none when
    [routes] is absent); the nodes keep the order of the entries. *)
Theorem genRouterToTreeData_entries (routes : list Route) :
  genRouterToTreeData routes = flat_map nodes_of_route routes
  /\ List.length (genRouterToTreeData routes)
     = List.length (filter (fun item => truthy_string (route_path item)) routes).
Proof.
  unfold genRouterToTreeData.
  induction routes as [|item routes [IH IHlen]]; [split; reflexivity|].
  cbn [map flat_map filter]. rewrite <- routeToNode_nodes, <- IH.
  destruct item as [[p|] rs]; cbn [routeToNode route_path truthy_string];
    [|split; [reflexivity | exact IHlen]].
  destruct (p =? ""); cbn [negb filter_defined app List.length];
    split; try reflexivity; [exact IHlen | now rewrite IHlen].
Qed.

(** C7 as stated fails: an entry whose [path] is the empty string has a
    [path] and yields no node. *)
Lemma genRouterToTreeData_empty_path_counterexample :
  route_path (leaf_route "") = Some ""
  /\ genRouterToTreeData [leaf_route ""] = []
  /\ flat_map spec_nodes_of_route [leaf_route ""] = [leaf_node ""]
  /\ genRouterToTreeData [leaf_route ""]
     <> flat_map spec_nodes_of_route [leaf_route ""].
Proof.
  repeat split; try reflexivity. discriminate.
Qed.

(** ** [routeExists] *)

(** What [routeExists] computes: the own keys of the flattened mapping and
    the names of inherited members read as truthy. *)
Lemma routeExists_read (path : string) (routes : list Route) :
  routeExists path routes
  = has_own (reduceData (genRouterToTreeData routes)) path
    || is_inherited path.
Proof.
  unfold routeExists.
  destruct (reduceData_good (genRouterToTreeData routes)) as [_ Hall].
  rewrite (read_truthy_defined _ path Hall).
  now destruct (has_own _ path || is_inherited path).
Qed.

(** C4. The claim is that [routeExists path routes] is true exactly when
    [path] is a key of the flattened mapping.  The code reads
    [routerConfig[path]], which also sees the members inherited from
    [Object.prototype]: for the path ["constructor"] and no routes at all it
    answers [true] although the flattened mapping has no key.  The two
    examples of the claim hold. *)
Theorem routeExists_inherited_member :
  Object_keys (reduceData (genRouterToTreeData [])) = []
  /\ routeExists "constructor" [] = true
  /\ routeExists "/user" [leaf_route "/user"] = true
  /\ routeExists "/user/list" [leaf_route "/user"] = false.
Proof. repeat split. Qed.

(** ** Path segments *)

Lemma string_length_app (a b : string) :
  String.length (a ++ b) = String.length a + String.length b.
Proof. induction a as [|c a IH]; cbn; [reflexivity | now rewrite IH]. Qed.

Lemma weight_app (l1 l2 : list string) :
  weight (l1 ++ l2)%list = weight l1 + weight l2.
Proof. unfold weight. now rewrite map_app, list_sum_app. Qed.

Lemma weight_cons (seg : string) (l : list string) :
  weight (seg :: l) = S (String.length seg) + weight l.
Proof. reflexivity. Qed.

Lemma weight_split_on (sep : ascii) (s : string) :
  weight (split_on sep s) = S (String.length s).
Proof.
  induction s as [|c s IH]; [reflexivity|].
  cbn [split_on]. destruct (Ascii.eqb c sep).
  - rewrite weight_cons, IH. reflexivity.
  - destruct (split_on sep s) as [|seg rest]; [discriminate|].
    rewrite weight_cons in *. cbn [String.length] in *. lia.
Qed.

Lemma weight_filter (keep : string -> bool) (l : list string) :
  weight (filter keep l) <= weight l.
Proof.
  induction l as [|seg l IH]; [apply le_n|].
  cbn [filter]. destruct (keep seg); rewrite !weight_cons; lia.
Qed.

Lemma weight_array_join (l : list string) :
  l <> [] -> S (String.length (array_join "/" l)) = weight l.
Proof.
  induction l as [|seg l IH]; intros Hne; [contradiction|].
  destruct l as [|seg' l'].
  - unfold weight. cbn. lia.
  - unfold array_join in *.
    change (String.concat "/" (seg :: seg' :: l'))
      with (seg ++ "/" ++ String.concat "/" (seg' :: l')).
    rewrite !string_length_app, (weight_cons seg).
    rewrite <- IH by discriminate. cbn [String.length]. lia.
Qed.

Lemma path_segments_nonempty (key seg : string) :
  In seg (path_segments key) -> seg <> "".
Proof.
  unfold path_segments. intros Hin Heq. apply filter_In in Hin as [_ Hkeep].
  subst seg. discriminate.
Qed.

Lemma weight_nonempty (l : list string) :
  l <> [] -> (forall seg, In seg l -> seg <> "") -> 2 <= weight l.
Proof.
  destruct l as [|seg l]; intros Hne Hall; [contradiction|].
  rewrite weight_cons.
  assert (seg <> "") by (apply Hall; now left).
  destruct seg; [contradiction|]. cbn [String.length]. lia.
Qed.

Lemma array_join_nonempty (seg : string) (l : list string) :
  seg <> "" -> array_join "/" (seg :: l) <> "".
Proof.
  intros Hseg. destruct seg as [|c seg]; [contradiction|].
  unfold array_join. cbn [String.concat]. destruct l; discriminate.
Qed.

(** A key assigned by the prefix synthesis is shorter than the key it is
    derived from. *)
Lemma written_key_shorter (key : string) (index : nat) :
  index < List.length (path_segments key) ->
  array_join "/" (firstn index (path_segments key)) <> "" ->
  String.length ("/" ++ array_join "/" (firstn index (path_segments key)))
  < String.length key.
Proof.
  intros Hlt Hne.
  set (array := path_segments key) in *.
  assert (Hfirst : firstn index array <> []).
  { intros Heq. rewrite Heq in Hne. now apply Hne. }
  assert (Hrest : skipn index array <> []).
  { intros Heq. apply (f_equal (@List.length string)) in Heq.
    rewrite length_skipn in Heq. cbn in Heq. lia. }
  pose proof (weight_array_join _ Hfirst) as Hjoin.
  assert (Hskip : 2 <= weight (skipn index array)).
  { apply weight_nonempty; [exact Hrest|].
    intros seg Hin. apply (path_segments_nonempty key).
    fold array. rewrite <- (firstn_skipn index array).
    apply in_or_app. now right. }
  pose proof (weight_filter (fun routerKey => negb (routerKey =? ""))
                (split_on "/" key)) as Hfilter.
  fold (path_segments key) in Hfilter. fold array in Hfilter.
  rewrite weight_split_on in Hfilter.
  rewrite <- (firstn_skipn index array), weight_app in Hfilter.
  cbn [append String.length]. lia.
Qed.

Lemma ancestor_keys_written (key : string) :
  ancestor_keys key
  = written_keys (path_segments key)
                 (seq 0 (List.length (path_segments key))).
Proof.
  unfold ancestor_keys, written_keys.
  pose proof (path_segments_nonempty key) as Hne.
  destruct (path_segments key) as [|seg array]; [reflexivity|].
  change (List.length (seg :: array)) with (S (List.length array)).
  replace (S (List.length array) - 1) with (List.length array) by lia.
  rewrite <- cons_seq. cbn [flat_map firstn].
  change (array_join "/" []) with "". cbn [String.eqb negb app].
  assert (Hpos : Forall (fun i => 1 <= i) (seq 1 (List.length array))).
  { apply Forall_forall. intros i Hi. apply in_seq in Hi. lia. }
  induction Hpos as [|i indices Hi _ IH]; [reflexivity|].
  cbn [map flat_map]. rewrite IH.
  destruct i as [|i]; [lia|]. cbn [firstn].
  pose proof (array_join_nonempty seg (firstn i array)
                (Hne seg (or_introl eq_refl))) as Hjoin.
  apply String.eqb_neq in Hjoin. rewrite Hjoin. reflexivity.
Qed.

(** ** The prefix synthesis of [depthRouterConfig] *)

Lemma written_keys_cons (array : list string) (i : nat) (indices : list nat) :
  written_keys array (i :: indices)
  = (written_keys array [i] ++ written_keys array indices)%list.
Proof. unfold written_keys. cbn [flat_map]. now rewrite app_nil_r. Qed.

Section Synthesize.

Variable key : string.

(** One iteration of the inner [forEach]: the binding of [key] is
    untouched, the key it assigns gets the node of [key], the other keys
    keep theirs. *)
Lemma synthesize_prefix_effect (cfg : Obj) (i : nat) :
  i < List.length (path_segments key) ->
  get (synthesize_prefix key (path_segments key) cfg i) key = get cfg key
  /\ (forall p, In p (written_keys (path_segments key) [i]) ->
                get (synthesize_prefix key (path_segments key) cfg i) p
                = get cfg key)
  /\ (forall p, ~ In p (written_keys (path_segments key) [i]) ->
                get (synthesize_prefix key (path_segments key) cfg i) p
                = get cfg p).
Proof.
  intros Hi. unfold synthesize_prefix, written_keys. cbn [flat_map].
  cbv zeta. rewrite app_nil_r.
  destruct (array_join "/" (firstn i (path_segments key)) =? "") eqn:Hempty;
    cbn [negb].
  { split; [reflexivity|]. split; [intros p [] | reflexivity]. }
  apply String.eqb_neq in Hempty.
  pose proof (written_key_shorter key i Hi Hempty) as Hshort.
  assert (Hne : "/" ++ array_join "/" (firstn i (path_segments key)) <> key).
  { intros Heq. rewrite Heq in Hshort. lia. }
  split; [now apply get_set_other|]. split.
  - intros p [<-|[]]. apply get_set_same.
  - intros p Hp. apply get_set_other. cbn [In] in Hp. tauto.
Qed.

Lemma fold_synthesize_prefix (indices : list nat) :
  (forall i, In i indices -> i < List.length (path_segments key)) ->
  forall cfg,
    get (fold_left (synthesize_prefix key (path_segments key)) indices cfg) key
    = get cfg key
    /\ (forall p, In p (written_keys (path_segments key) indices) ->
                  get (fold_left (synthesize_prefix key (path_segments key))
                                 indices cfg) p
                  = get cfg key)
    /\ (forall p, ~ In p (written_keys (path_segments key) indices) ->
                  get (fold_left (synthesize_prefix key (path_segments key))
                                 indices cfg) p
                  = get cfg p).
Proof.
  induction indices as [|i indices IH]; intros Hrange cfg.
  { cbn. split; [reflexivity|]. split; [intros p [] | reflexivity]. }
  cbn [fold_left].
  assert (Hi : i < List.length (path_segments key))
    by (apply Hrange; now left).
  assert (Hrange' : forall j, In j indices ->
                              j < List.length (path_segments key))
    by (intros j Hj; apply Hrange; now right).
  destruct (IH Hrange' (synthesize_prefix key (path_segments key) cfg i))
    as (Hkey & Hwritten & Hother).
  destruct (synthesize_prefix_effect cfg i Hi) as (Hkey1 & Hwritten1 & Hother1).
  rewrite written_keys_cons.
  split; [now rewrite Hkey|]. split.
  - intros p Hp.
    destruct (in_dec string_dec p (written_keys (path_segments key) indices))
      as [Hin|Hnot]; [now rewrite Hwritten|].
    apply in_app_or in Hp as [Hp|Hp]; [|contradiction].
    rewrite (Hother _ Hnot). now apply Hwritten1.
  - intros p Hp. rewrite Hother, Hother1; [reflexivity| |];
      intros Hin; apply Hp, in_or_app; tauto.
Qed.

Lemma synthesize_effect (cfg : Obj) :
  get (synthesize key cfg) key = get cfg key
  /\ (forall p, In p (ancestor_keys key) ->
                get (synthesize key cfg) p = get cfg key)
  /\ (forall p, ~ In p (ancestor_keys key) ->
                get (synthesize key cfg) p = get cfg p).
Proof.
  rewrite ancestor_keys_written. unfold synthesize.
  apply fold_synthesize_prefix. intros i Hi. apply in_seq in Hi. lia.
Qed.

End Synthesize.

(** C2 (as amended). The prefix synthesis writes every ancestor key
    unconditionally: after the pass for [key], each ancestor key of [key]
    is bound to the node of [key], whether or not it was present before,
    and every other key keeps its binding. *)
Theorem synthesize_overwrites (key : string) (routerConfig : Obj) :
  (forall p, In p (ancestor_keys key) ->
             get (synthesize key routerConfig) p = get routerConfig key)
  /\ (forall p, ~ In p (ancestor_keys key) ->
                get (synthesize key routerConfig) p = get routerConfig p).
Proof. apply synthesize_effect. Qed.

Lemma synthesize_overwrites_witness :
  get (synthesize "/user/list"
                  (reduceData (genRouterToTreeData user_routes))) "/user"
  = Some (leaf_node "/user/list")
  /\ get (synthesize "/user/list"
                     (reduceData (genRouterToTreeData user_routes))) "/other"
     = None.
Proof.
  split.
  - apply (proj1 (synthesize_overwrites
                    "/user/list"
                    (reduceData (genRouterToTreeData user_routes)))
                 "/user").
    cbn. tauto.
  - apply (proj2 (synthesize_overwrites
                    "/user/list"
                    (reduceData (genRouterToTreeData user_routes)))
                 "/other").
    cbn. intuition discriminate.
Defined.

(** C2 as stated fails: ["/user"] is present after the flatten step, bound
    to the node of ["/user"], and the pass for ["/user/list"] rebinds it. *)
Lemma first_seen_wins_counterexample :
  get (reduceData (genRouterToTreeData user_routes)) "/user" = Some user_node
  /\ get (fst (depthRouterConfig_map user_routes)) "/user"
     = Some (leaf_node "/user/list")
  /\ ~ first_seen_wins user_routes.
Proof.
  split; [reflexivity|]. split; [reflexivity|].
  intros H. specialize (H "/user" (or_introl eq_refl)). discriminate H.
Qed.

(** ** [depthRouterConfig] *)



Section ExpandKeys.

Variable source : Obj.


(** When ancestors come first, every key is still bound to its flattened
    value when its turn comes. *)
Lemma expand_keys_exact (keys : list string) :
  forall cfg out,
    ancestors_first keys = true ->
    (forall k, In k keys -> get cfg k = get source k) ->
    snd (fold_left expand_key keys (cfg, out))
    = (out ++ map (get source) keys)%list.
Proof.
  induction keys as [|k keys IH]; intros cfg out Hfirst Hagree;
    cbn [fold_left map]; [now rewrite app_nil_r|].
  cbn [ancestors_first] in Hfirst.
  apply andb_true_iff in Hfirst as [Hk Hfirst].
  destruct (synthesize_effect k cfg) as (Hkey & _ & Hother).
  unfold expand_key at 2. cbn [fst snd].
  rewrite IH; [|exact Hfirst|].
  - rewrite Hkey, (Hagree k (or_introl eq_refl)), <- app_assoc. reflexivity.
  - intros k' Hk'. rewrite Hother; [apply Hagree; now right|].
    rewrite forallb_forall in Hk. specialize (Hk k' Hk').
    apply negb_true_iff in Hk. intros Hin.
    assert (Hex : existsb (String.eqb k') (ancestor_keys k) = true).
    { apply existsb_exists. exists k'. split; [exact Hin|].
      apply String.eqb_refl. }
    congruence.
Qed.

End ExpandKeys.




(** ** [gitUpdate] *)

(** Symbolic execution of a run: unfold the monad, then decide the answers
    of the outside world one by one, in program order. *)
Ltac io_step :=
  cbv [gitUpdate gitClone bind try_catch fail_and_rethrow execa isSubmodule
       existsSync spinner_start spinner_succeed spinner_fail emit throw ret
       new_Error error_to_string app fst snd].

Ltac case_process :=
  match goal with
  | |- context [match ?pf ?h ?f ?a ?o with Some _ => _ | None => _ end] =>
      let E := fresh "Hprocess" in
      destruct (pf h f a o) eqn:E; io_step
  end.

Ltac case_marker :=
  match goal with
  | |- context [if ?fe ?h ?p then _ else _] =>
      let E := fresh "Hmarker" in
      destruct (fe h p) eqn:E; io_step
  end.

Ltac run_io := io_step; repeat first [case_process | case_marker].


Section FailFast.

Variable process_fails :
  list Event -> string -> list string -> ExecaOptions -> option string.
Variable result : Result unit.


End FailFast.





(** C9. When the clone directory holds no [.gitmodules] file and fetch,
    checkout and pull succeed, [gitUpdate] runs neither submodule step and
    completes successfully, its last effect being [spinner.succeed()]; in
    any run, a submodule step is only run after [existsSync] has answered
    that the marker file is present. *)
Theorem gitUpdate_submodule_steps
        (process_fails :
           list Event -> string -> list string -> ExecaOptions -> option string)
        (file_exists : list Event -> string -> bool)
        (join : list string -> string) (ctx : CloneContext) :
  ((forall history,
       file_exists history (join [templateTmpDirPath ctx; ".gitmodules"])
       = false) ->
   (forall history args options,
       In args (firstn 3 (update_steps ctx)) ->
       process_fails history "git" args options = None) ->
   gitUpdate process_fails file_exists join ctx []
   = (Ok tt,
      (history_before_marker ctx
         ++ [ExistsSync (join [templateTmpDirPath ctx; ".gitmodules"]);
             SpinnerSucceed])%list)
   /\ processes (snd (gitUpdate process_fails file_exists join ctx []))
      = [["fetch"]; ["checkout"; branch ctx]; ["pull"]])
  /\ (existsb is_submodule_step
              (snd (gitUpdate process_fails file_exists join ctx [])) = true ->
      file_exists (history_before_marker ctx)
                  (join [templateTmpDirPath ctx; ".gitmodules"]) = true).
Proof.
  split.
  - intros Hmarker Hsucceed.
    assert (Hrun : gitUpdate process_fails file_exists join ctx []
                   = (Ok tt,
                      (history_before_marker ctx
                         ++ [ExistsSync
                               (join [templateTmpDirPath ctx; ".gitmodules"]);
                             SpinnerSucceed])%list)).
    { io_step.
      rewrite Hsucceed by (cbn [In firstn update_steps]; tauto). io_step.
      rewrite Hsucceed by (cbn [In firstn update_steps]; tauto). io_step.
      rewrite Hsucceed by (cbn [In firstn update_steps]; tauto). io_step.
      rewrite Hmarker. reflexivity. }
    split; [exact Hrun|]. rewrite Hrun. reflexivity.
  - unfold history_before_marker. run_io; intros Hsteps;
      solve [reflexivity | cbn in Hsteps; discriminate Hsteps].
Qed.

Lemma gitUpdate_submodule_steps_witness :
  gitUpdate (scripted_processes []) no_marker posix_join sample_context []
  = (Ok tt,
     (history_before_marker sample_context
        ++ [ExistsSync "/tmp/blocks/pro-blocks/.gitmodules";
            SpinnerSucceed])%list)
  /\ processes
       (snd (gitUpdate (scripted_processes []) no_marker posix_join
                       sample_context []))
     = [["fetch"]; ["checkout"; "master"]; ["pull"]].
Proof.
  apply (proj1 (gitUpdate_submodule_steps
                  (scripted_processes []) no_marker posix_join
                  sample_context)).
  - reflexivity.
  - intros history args options _. unfold scripted_processes.
    now destruct (List.length (processes history)).
Defined.

(** ** Further properties of [genBlockName] *)

Lemma lower_char_upper (c : ascii) :
  is_upper c = true -> is_lower (lower_char c) = true.
Proof.
  destruct c as [[] [] [] [] [] [] [] []]; vm_compute; intros H;
    first [reflexivity | discriminate H].
Qed.

Lemma lower_char_lower (c : ascii) :
  is_lower c = true -> lower_char c = c /\ is_upper c = false
                       /\ is_digit c = false.
Proof.
  destruct c as [[] [] [] [] [] [] [] []]; vm_compute; intros H;
    first [discriminate H | repeat split].
Qed.

Lemma lower_char_digit (c : ascii) :
  is_digit c = true -> lower_char c = c /\ is_upper c = false
                       /\ is_lower c = false.
Proof.
  destruct c as [[] [] [] [] [] [] [] []]; vm_compute; intros H;
    first [discriminate H | repeat split].
Qed.

Lemma forallb_take_while (p : ascii -> bool) (s : string) :
  string_forallb p (take_while p s) = true.
Proof.
  induction s as [|c s IH]; [reflexivity|]. cbn [take_while].
  destruct (p c) eqn:E; [|reflexivity]. cbn [string_forallb].
  now rewrite E, IH.
Qed.

Lemma toLowerCase_fixed (p : ascii -> bool) (t : string) :
  (forall c, p c = true -> lower_char c = c) ->
  string_forallb p t = true -> toLowerCase t = t.
Proof.
  intros Hp. induction t as [|c t IH]; intros Ht; [reflexivity|].
  cbn [string_forallb] in Ht. apply andb_true_iff in Ht as [Hc Ht].
  cbn [toLowerCase]. now rewrite (Hp c Hc), IH.
Qed.

Lemma toLowerCase_lower (t : string) :
  string_forallb is_lower t = true -> toLowerCase t = t.
Proof.
  apply toLowerCase_fixed. intros c Hc. apply (lower_char_lower c Hc).
Qed.

Lemma toLowerCase_digit (t : string) :
  string_forallb is_digit t = true -> toLowerCase t = t.
Proof.
  apply toLowerCase_fixed. intros c Hc. apply (lower_char_digit c Hc).
Qed.

Lemma toLowerCase_clean (t : string) :
  clean_token t = true -> toLowerCase t = t.
Proof.
  unfold clean_token, word_token, digit_token. intros H.
  apply orb_true_iff in H as [H|H]; apply andb_true_iff in H as [_ H].
  - now apply toLowerCase_lower.
  - now apply toLowerCase_digit.
Qed.

(** Every token, once lower-cased, is a lowercase word or a number. *)
Lemma spec_tokens_clean (s : string) :
  forall skip,
    Forall (fun t => clean_token (toLowerCase t) = true) (spec_tokens s skip).
Proof.
  induction s as [|c s IH]; intros [|n]; cbn [spec_tokens];
    try solve [constructor | apply IH].
  destruct (is_upper c && negb (take_while is_lower s =? "")) eqn:Hcap.
  { constructor; [|apply IH].
    apply andb_true_iff in Hcap as [Hup _].
    cbn [toLowerCase]. unfold clean_token, word_token.
    rewrite toLowerCase_lower by apply forallb_take_while.
    cbn [String.eqb negb andb string_forallb].
    now rewrite (lower_char_upper c Hup), forallb_take_while. }
  destruct (is_lower c) eqn:Hlow.
  { constructor; [|apply IH].
    rewrite toLowerCase_lower by apply forallb_take_while.
    unfold clean_token, word_token. rewrite forallb_take_while.
    cbn [take_while]. now rewrite Hlow. }
  destruct (is_digit c) eqn:Hdig; [|apply IH].
  constructor; [|apply IH].
  rewrite toLowerCase_digit by apply forallb_take_while.
  unfold clean_token, digit_token. rewrite forallb_take_while.
  cbn [take_while]. rewrite Hdig. cbn. apply orb_true_r.
Qed.

Lemma string_forallb_app (p : ascii -> bool) (a b : string) :
  string_forallb p (a ++ b) = string_forallb p a && string_forallb p b.
Proof.
  induction a as [|c a IH]; [reflexivity|].
  cbn [append string_forallb]. now rewrite IH, andb_assoc.
Qed.

Lemma clean_token_chars (t : string) :
  clean_token t = true -> t <> "" /\ string_forallb name_char t = true.
Proof.
  unfold clean_token, word_token, digit_token. intros H.
  assert (Hne : t <> "").
  { intros ->. cbn in H. discriminate. }
  split; [exact Hne|].
  assert (Hchars : string_forallb is_lower t = true
                   \/ string_forallb is_digit t = true).
  { apply orb_true_iff in H as [H|H]; apply andb_true_iff in H as [_ H];
      tauto. }
  clear H Hne. induction t as [|c t IH]; [reflexivity|].
  cbn [string_forallb] in *. unfold name_char at 1.
  destruct Hchars as [Hc|Hc]; apply andb_true_iff in Hc as [Hc Ht];
    rewrite Hc, ?orb_true_r; cbn [orb andb]; apply IH; tauto.
Qed.

Lemma joined_tokens_chars (ts : list string) :
  ts <> [] ->
  Forall (fun t => clean_token t = true) ts ->
  array_join "/" ts <> ""
  /\ string_forallb name_char (array_join "/" ts) = true.
Proof.
  intros Hne Hall. induction Hall as [|t ts Ht Hts IH]; [contradiction|].
  destruct (clean_token_chars t Ht) as [Hnonempty Hchars].
  unfold array_join in *. destruct ts as [|t' ts'].
  - cbn [String.concat]. tauto.
  - change (String.concat "/" (t :: t' :: ts'))
      with (t ++ "/" ++ String.concat "/" (t' :: ts')).
    destruct IH as [_ IH]; [discriminate|]. split.
    + destruct t; [contradiction | discriminate].
    + rewrite !string_forallb_app, Hchars, IH. reflexivity.
Qed.

(** X1. A generated name is never empty and consists of lowercase
    letters, digits and ["/"] only. *)
Theorem genBlockName_alphabet (name out : string) :
  genBlockName name = Ok out ->
  out <> "" /\ string_forallb name_char out = true.
Proof.
  unfold genBlockName. rewrite match_global_spec_tokens.
  pose proof (spec_tokens_clean name 0) as Hclean.
  destruct (spec_tokens name 0) as [|t ts] eqn:Htokens; [discriminate|].
  intros [= <-].
  apply (joined_tokens_chars (map toLowerCase (t :: ts))); [discriminate|].
  apply Forall_map with (f := toLowerCase) (P := fun t => clean_token t = true).
  exact Hclean.
Qed.

Lemma genBlockName_alphabet_witness :
  "account/center" <> ""
  /\ string_forallb name_char "account/center" = true.
Proof.
  apply (genBlockName_alphabet "AccountCenter" "account/center").
  reflexivity.
Defined.

Lemma string_app_nil_r (s : string) : s ++ "" = s.
Proof. induction s as [|c s IH]; cbn; [reflexivity | now rewrite IH]. Qed.

Lemma take_while_app_stop (p : ascii -> bool) (t r : string) :
  string_forallb p t = true -> stops p r = true ->
  take_while p (t ++ r) = t.
Proof.
  intros Ht Hr. induction t as [|c t IH].
  - destruct r as [|c r]; [reflexivity|]. cbn in *.
    apply negb_true_iff in Hr. now rewrite Hr.
  - cbn [string_forallb] in Ht. apply andb_true_iff in Ht as [Hc Ht].
    cbn [append take_while]. now rewrite Hc, IH.
Qed.

Lemma spec_tokens_skip_app (a b : string) :
  spec_tokens (a ++ b) (String.length a) = spec_tokens b 0.
Proof. induction a as [|c a IH]; [reflexivity | exact IH]. Qed.

(** A clean token at the head of the input is found as it is. *)
Lemma spec_tokens_clean_head (t r : string) :
  clean_token t = true ->
  stops is_lower r = true -> stops is_digit r = true ->
  spec_tokens (t ++ r) 0 = t :: spec_tokens r 0.
Proof.
  unfold clean_token, word_token, digit_token. intros Ht Hlow Hdig.
  destruct t as [|c t]; [discriminate|].
  cbn [String.eqb negb andb string_forallb] in Ht.
  cbn [append spec_tokens].
  apply orb_true_iff in Ht as [Ht|Ht]; apply andb_true_iff in Ht as [Hc Ht].
  - destruct (lower_char_lower c Hc) as (_ & Hup & _).
    rewrite Hup, Hc. cbn [andb take_while]. rewrite Hc.
    rewrite (take_while_app_stop is_lower t r Ht Hlow).
    now rewrite spec_tokens_skip_app.
  - destruct (lower_char_digit c Hc) as (_ & Hup & Hnotlow).
    rewrite Hup, Hnotlow, Hc. cbn [andb take_while]. rewrite Hc.
    rewrite (take_while_app_stop is_digit t r Ht Hdig).
    now rewrite spec_tokens_skip_app.
Qed.

(** Tokenising a generated name gives back its tokens. *)
Lemma spec_tokens_joined (ts : list string) :
  Forall (fun t => clean_token t = true) ts ->
  spec_tokens (array_join "/" ts) 0 = ts.
Proof.
  induction 1 as [|t ts Ht _ IH]; [reflexivity|].
  unfold array_join in *. destruct ts as [|t' ts'].
  - cbn [String.concat]. rewrite <- (string_app_nil_r t) at 1.
    now rewrite spec_tokens_clean_head.
  - change (String.concat "/" (t :: t' :: ts'))
      with (t ++ String "/" (String.concat "/" (t' :: ts'))).
    rewrite spec_tokens_clean_head by (exact Ht || reflexivity).
    f_equal. exact IH.
Qed.

(** X2. [genBlockName] is idempotent: applied to a name it generated, it
    returns that name. *)
Theorem genBlockName_idempotent (name out : string) :
  genBlockName name = Ok out -> genBlockName out = Ok out.
Proof.
  unfold genBlockName. rewrite !match_global_spec_tokens.
  pose proof (spec_tokens_clean name 0) as Hclean.
  destruct (spec_tokens name 0) as [|t ts]; [discriminate|].
  intros [= <-].
  apply (Forall_map toLowerCase (fun t => clean_token t = true)) in Hclean.
  change (match spec_tokens (array_join "/" (map toLowerCase (t :: ts))) 0 with
          | [] => Throw (TypeError "Cannot read property 'map' of null")
          | ps => Ok (array_join "/" (map toLowerCase ps))
          end = Ok (array_join "/" (map toLowerCase (t :: ts)))).
  rewrite (spec_tokens_joined _ Hclean).
  cbn [map]. f_equal. f_equal.
  change (map toLowerCase (map toLowerCase (t :: ts))
          = map toLowerCase (t :: ts)).
  rewrite <- (map_id (map toLowerCase (t :: ts))) at 2.
  apply map_ext_in. intros a Ha.
  rewrite Forall_forall in Hclean. now apply toLowerCase_clean, Hclean.
Qed.

Lemma genBlockName_idempotent_witness :
  genBlockName "user/2" = Ok "user/2".
Proof.
  apply (genBlockName_idempotent "userV2" "user/2"). reflexivity.
Defined.

(** ** Further properties of [printBlocks] *)

Section PrintBlocksResult.

Variable join : list string -> string.
Variable cyan : string -> string.
Variable terminalLink : string -> string -> string.
Variable hasLink : bool.

Lemma forEach_visit_result (bs : list BlockDescriptor) :
  Forall (visit_result join cyan terminalLink hasLink) bs ->
  forall ancestors blockArray,
    forEach (visitBlock join cyan terminalLink hasLink (last ancestors ""))
            bs blockArray
    = if existsb broken_dir bs
      then Throw (TypeError "Cannot read property 'forEach' of undefined")
      else Ok (blockArray
                 ++ map (leafChoice join cyan terminalLink hasLink)
                        (flat_map (visited_leaves ancestors) bs))%list.
Proof.
  induction 1 as [|b bs Hb _ IH]; intros ancestors blockArray.
  - cbn. now rewrite app_nil_r.
  - cbn [forEach existsb flat_map]. rewrite (Hb ancestors blockArray).
    destruct (broken_dir b); [reflexivity|]. cbn [orb].
    rewrite IH. destruct (existsb broken_dir bs); [reflexivity|].
    now rewrite map_app, app_assoc.
Qed.

Lemma visitBlock_result (block : BlockDescriptor) :
  visit_result join cyan terminalLink hasLink block.
Proof.
  induction block as [type path previewUrl | type path previewUrl bs IH]
    using BlockDescriptor_nested_ind; intros ancestors blockArray;
    cbn [visitBlock broken_dir visited_leaves].
  - destruct (type =? "dir") eqn:Hdir; [reflexivity|]. cbn [andb].
    rewrite app_nil_r.
    destruct (type =? "block"); cbn [map]; now rewrite ?app_nil_r.
  - destruct (type =? "dir") eqn:Hdir; cbn [andb].
    + apply String.eqb_eq in Hdir. subst type.
      change ("dir" =? "block") with false. cbv iota. cbn [app].
      pose proof (forEach_visit_result bs IH (ancestors ++ [path]) blockArray)
        as Hloop.
      rewrite last_last in Hloop. exact Hloop.
    + rewrite app_nil_r.
      destruct (type =? "block"); cbn [map]; now rewrite ?app_nil_r.
Qed.

Lemma printBlocks_result (blocks : list BlockDescriptor) :
  printBlocks join cyan terminalLink hasLink blocks
  = if existsb broken_dir blocks
    then Throw (TypeError "Cannot read property 'forEach' of undefined")
    else Ok (map (leafChoice join cyan terminalLink hasLink)
                 (flat_map (visited_leaves []) blocks)).
Proof.
  unfold printBlocks, loopBlocks.
  apply (forEach_visit_result blocks) with (ancestors := []) (blockArray := []).
  apply Forall_forall. intros b _. apply visitBlock_result.
Qed.

End PrintBlocksResult.

(** X3. For any list of descriptors, well formed or not, [printBlocks]
    throws a [TypeError] exactly when the traversal reaches a ["dir"]
    without a [blocks] sequence; otherwise it returns the records of the
    ["block"] descriptors reached through directories, in depth-first
    order.  Descriptors of any other type are skipped with all they
    contain. *)
Theorem printBlocks_total_result
        (join : list string -> string) (cyan : string -> string)
        (terminalLink : string -> string -> string) (hasLink : bool)
        (blocks : list BlockDescriptor) :
  printBlocks join cyan terminalLink hasLink blocks
  = if existsb broken_dir blocks
    then Throw (TypeError "Cannot read property 'forEach' of undefined")
    else Ok (map (leafChoice join cyan terminalLink hasLink)
                 (flat_map (visited_leaves []) blocks)).
Proof. apply printBlocks_result. Qed.

(** X4. The values and keys offered for selection do not depend on
    [hasLink] nor on how names are decorated: two calls on the same list
    either both throw the same error or return records with the same
    values and keys. *)
Theorem printBlocks_values_independent
        (join : list string -> string) (cyan cyan' : string -> string)
        (terminalLink terminalLink' : string -> string -> string)
        (hasLink hasLink' : bool) (blocks : list BlockDescriptor) :
  match printBlocks join cyan terminalLink hasLink blocks,
        printBlocks join cyan' terminalLink' hasLink' blocks with
  | Ok blockArray, Ok blockArray' =>
      map choice_value blockArray = map choice_value blockArray'
      /\ map choice_key blockArray = map choice_key blockArray'
  | Throw e, Throw e' => e = e'
  | _, _ => False
  end.
Proof.
  rewrite !printBlocks_result.
  destruct (existsb broken_dir blocks); [reflexivity|].
  rewrite !map_map. split; reflexivity.
Qed.

(** X5. [printBlocks] on a concatenation: the first error wins, otherwise
    the records of the first list are followed by those of the second. *)
Theorem printBlocks_app
        (join : list string -> string) (cyan : string -> string)
        (terminalLink : string -> string -> string) (hasLink : bool)
        (blocks blocks' : list BlockDescriptor) :
  printBlocks join cyan terminalLink hasLink (blocks ++ blocks')%list
  = match printBlocks join cyan terminalLink hasLink blocks with
    | Throw e => Throw e
    | Ok blockArray =>
        match printBlocks join cyan terminalLink hasLink blocks' with
        | Throw e => Throw e
        | Ok blockArray' => Ok (blockArray ++ blockArray')%list
        end
    end.
Proof.
  rewrite !printBlocks_result, existsb_app, flat_map_app, map_app.
  destruct (existsb broken_dir blocks); [reflexivity|].
  destruct (existsb broken_dir blocks'); reflexivity.
Qed.

(** ** [getBlockListFromGit] *)

Lemma genBlockName_cases (name : string) :
  if matches_somewhere blockNamePattern name
  then exists out, genBlockName name = Ok out
  else genBlockName name
       = Throw (TypeError "Cannot read property 'map' of null").
Proof.
  rewrite matches_somewhere_tokenizable. unfold genBlockName.
  rewrite match_global_spec_tokens.
  destruct (string_forallb (fun c => negb (tokenizable c)) name) eqn:H;
    cbn [negb].
  - now rewrite (spec_tokens_none name 0 H).
  - apply spec_tokens_some in H.
    destruct (spec_tokens name 0); [contradiction | eexists; reflexivity].
Qed.

(** X6. The list generated from a repository tree: when some kept
    directory has a name without any lowercase letter or digit, the whole
    listing throws the [TypeError] of [genBlockName]; otherwise there is
    one descriptor per kept directory, in the order of the tree, of type
    ["block"], whose preview URL ends in the generated name. *)
Theorem filesTree_result (gitUrl : string) (tree : list TreeFile) :
  (existsb unnameable tree = true ->
   filesTree gitUrl tree
   = Throw (TypeError "Cannot read property 'map' of null"))
  /\ (existsb unnameable tree = false ->
      exists blocks,
        filesTree gitUrl tree = Ok blocks
        /\ map info_path blocks = map file_path (filter keep_file tree)
        /\ Forall (fun b =>
                     info_type b = "block"
                     /\ info_url b = gitUrl ++ "/tree/master/" ++ info_path b
                     /\ exists generated,
                         genBlockName (info_path b) = Ok generated
                         /\ info_previewUrl b
                            = "https://preview.pro.ant.design/" ++ generated)
                  blocks).
Proof.
  unfold filesTree.
  induction tree as [|file tree [IHthrow IHok]].
  { split; [discriminate|]. intros _. exists []. repeat split. constructor. }
  cbn [existsb filter]. unfold unnameable at 1 3.
  destruct (keep_file file) eqn:Hkeep; cbn [andb orb map_throwing];
    [|split; assumption].
  unfold blockOfPath at 1 3.
  pose proof (genBlockName_cases (file_path file)) as Hname.
  destruct (matches_somewhere blockNamePattern (file_path file));
    cbn [negb orb].
  - destruct Hname as [generated Hname]. rewrite Hname. split.
    + intros Hbad. now rewrite (IHthrow Hbad).
    + intros Hgood. destruct (IHok Hgood) as (blocks & -> & Hpaths & Hall).
      eexists. split; [reflexivity|]. cbn [map info_path].
      split; [now rewrite Hpaths|].
      constructor; [|exact Hall]. cbn. repeat split.
      exists generated. split; [exact Hname | reflexivity].
  - rewrite Hname. split; [reflexivity | discriminate].
Qed.

Lemma filesTree_result_witness :
  filesTree "https://github.com/umijs/umi-blocks"
            [mkTreeFile "tree" "DOCS"; mkTreeFile "tree" "demo"]
  = Throw (TypeError "Cannot read property 'map' of null")
  /\ exists blocks,
      filesTree "https://github.com/umijs/umi-blocks"
                [mkTreeFile "blob" "README.md"; mkTreeFile "tree" ".github";
                 mkTreeFile "tree" "tests"; mkTreeFile "tree" "UserLogin"]
      = Ok blocks
      /\ map info_path blocks = ["UserLogin"].
Proof.
  split.
  - apply (proj1 (filesTree_result
                    "https://github.com/umijs/umi-blocks"
                    [mkTreeFile "tree" "DOCS"; mkTreeFile "tree" "demo"])).
    reflexivity.
  - destruct (proj2 (filesTree_result
                       "https://github.com/umijs/umi-blocks"
                       [mkTreeFile "blob" "README.md";
                        mkTreeFile "tree" ".github";
                        mkTreeFile "tree" "tests";
                        mkTreeFile "tree" "UserLogin"]) eq_refl)
      as (blocks & Hrun & Hpaths & _).
    exists blocks. split; [exact Hrun | exact Hpaths].
Defined.

Lemma map_throwing_paths (gitUrl : string) (files : list TreeFile) :
  forall blocks,
    map_throwing (fun file => blockOfPath gitUrl (file_path file)) files
    = Ok blocks ->
    map info_path blocks = map file_path files.
Proof.
  induction files as [|file files IH]; intros blocks Hrun;
    cbn [map_throwing] in Hrun.
  - injection Hrun as <-. reflexivity.
  - unfold blockOfPath at 1 in Hrun.
    destruct (genBlockName (file_path file)); [|discriminate].
    destruct (map_throwing _ files) as [bs|]; [|discriminate].
    injection Hrun as <-. cbn [map info_path]. now rewrite (IH bs eq_refl).
Qed.

(** X7. What a generated list never holds: every descriptor comes from an
    entry of type ["tree"] of the response, and its path is neither
    ["_scripts"] nor ["tests"] nor starts with a dot. *)
Theorem filesTree_sound (gitUrl : string) (tree : list TreeFile)
        (blocks : list BlockInfo) (b : BlockInfo) :
  filesTree gitUrl tree = Ok blocks ->
  In b blocks ->
  In (mkTreeFile "tree" (info_path b)) tree
  /\ info_path b <> "_scripts"
  /\ info_path b <> "tests"
  /\ starts_with_dot (info_path b) = false.
Proof.
  intros Hrun Hin. unfold filesTree in Hrun.
  apply map_throwing_paths in Hrun.
  apply (in_map info_path) in Hin. rewrite Hrun in Hin.
  apply in_map_iff in Hin as ([type path] & Hpath & Hfile).
  apply filter_In in Hfile as [Hfile Hkeep].
  unfold keep_file in Hkeep. cbn [file_type file_path] in *.
  apply andb_true_iff in Hkeep as [Hkeep Hdot].
  apply andb_true_iff in Hkeep as [Htype Hignore].
  apply String.eqb_eq in Htype. subst type. rewrite <- Hpath.
  apply negb_true_iff in Hdot, Hignore.
  unfold includes, ignoreFile in Hignore. cbn [existsb] in Hignore.
  apply orb_false_iff in Hignore as [Hscripts Htests].
  apply orb_false_iff in Htests as [Htests _].
  apply String.eqb_neq in Hscripts, Htests. repeat split; assumption.
Qed.

Lemma filesTree_sound_witness :
  In (mkTreeFile "tree" "UserLogin")
     [mkTreeFile "tree" ".github"; mkTreeFile "tree" "UserLogin"]
  /\ "UserLogin" <> "_scripts"
  /\ "UserLogin" <> "tests"
  /\ starts_with_dot "UserLogin" = false.
Proof.
  apply (filesTree_sound
           "https://github.com/umijs/umi-blocks"
           [mkTreeFile "tree" ".github"; mkTreeFile "tree" "UserLogin"]
           [mkBlockInfo
              "https://github.com/umijs/umi-blocks/tree/master/UserLogin"
              "block" "UserLogin" true "/UserLogin"
              "https://github.com/ant-design/pro-blocks/raw/master/UserLogin/snapshot.png"
              ["Ant Design Pro"] "UserLogin"
              "https://preview.pro.ant.design/user/login"]
           (mkBlockInfo
              "https://github.com/umijs/umi-blocks/tree/master/UserLogin"
              "block" "UserLogin" true "/UserLogin"
              "https://github.com/ant-design/pro-blocks/raw/master/UserLogin/snapshot.png"
              ["Ant Design Pro"] "UserLogin"
              "https://preview.pro.ant.design/user/login")).
  - reflexivity.
  - now left.
Defined.

(** X8. [getBlockListFromGit] makes exactly one request: to the fixed
    registry file when the URL names ant-design/pro-blocks, to the tree
    API of the repository otherwise.  For another repository the spinner
    is marked succeeded exactly when the call returns a list; for the
    registry it is marked succeeded as soon as the download succeeds, before
    the body is parsed. *)
Theorem getBlockListFromGit_effects
        (GitUrlParse : string -> GitUrl) (yellow : string -> string)
        (Json : Type) (got : list RegistryEvent -> string -> Result string)
        (JSON_parse : string -> Result Json)
        (json_tree : Json -> Result (list TreeFile)) (gitUrl : string) :
  let run := getBlockListFromGit GitUrlParse yellow Json got JSON_parse
                                 json_tree gitUrl [] in
  let started := [LoadingSucceed;
                  LoadingStart ("🔍  find block list form " ++ yellow gitUrl)] in
  requests (snd run)
  = [if is_registry (GitUrlParse gitUrl) then registry_url
     else tree_url (GitUrlParse gitUrl)]
  /\ (is_registry (GitUrlParse gitUrl) = false ->
      ((exists blocks, fst run = Ok (GeneratedList blocks))
       <-> last (snd run) LoadingSucceed = LoadingSucceed))
  /\ (is_registry (GitUrlParse gitUrl) = true ->
      ((exists body, got started registry_url = Ok body)
       <-> last (snd run) LoadingSucceed = LoadingSucceed)).
Proof.
  cbv zeta. unfold getBlockListFromGit. cbn [app].
  destruct (is_registry (GitUrlParse gitUrl)).
  - destruct (got _ registry_url) as [body|e] eqn:Hgot;
      [destruct (JSON_parse body)|];
      cbn [fst snd app requests flat_map last]; (split; [reflexivity|]);
      (split; [discriminate|]); intros _; split;
      try reflexivity; try (intros _; eexists; reflexivity);
      try (intros [body' Hbody]; discriminate Hbody);
      try discriminate.
  - destruct (got _ (tree_url (GitUrlParse gitUrl))) as [body|e];
      [destruct (JSON_parse body) as [response|e];
       [destruct (json_tree response) as [tree|e];
        [destruct (filesTree gitUrl tree) as [blocks|e]|]|]|];
      cbn [fst snd app requests flat_map last]; (split; [reflexivity|]);
      (split; [|discriminate]); intros _; split;
      try reflexivity; try (intros _; eexists; reflexivity);
      try (intros [blocks' Hblocks]; discriminate Hblocks);
      try discriminate.
Qed.

(** ** Further properties of [gitClone] and [gitUpdate] *)

(** X9. [gitClone] starts the spinner and runs a single process, [git
    clone <repo> <id> --single-branch --recurse-submodules -b <branch>] in
    [blocksTempPath] with the environment passed on; when it exits with
    zero the spinner is marked succeeded and the call returns, otherwise
    the spinner is marked failed and the wrapped error is thrown. *)
Theorem gitClone_run
        (process_fails :
           list Event -> string -> list string -> ExecaOptions -> option string)
        (ctx : CloneContext) :
  exists outcome,
    gitClone process_fails ctx []
    = (fst outcome, [clone_start ctx; clone_call ctx; snd outcome])
    /\ processes (snd (gitClone process_fails ctx []))
       = [["clone"; repo ctx; id ctx; "--single-branch";
           "--recurse-submodules"; "-b"; branch ctx]]
    /\ match process_fails [clone_start ctx] "git"
                           ["clone"; repo ctx; id ctx; "--single-branch";
                            "--recurse-submodules"; "-b"; branch ctx]
                           (mkOptions (blocksTempPath ctx) true) with
       | None => outcome = (Ok tt, SpinnerSucceed)
       | Some message =>
           outcome = (Throw (Error ("Error: " ++ message)), SpinnerFail)
       end.
Proof.
  unfold clone_start, clone_call. run_io.
  - exists (Throw (Error ("Error: " ++ s)), SpinnerFail). repeat split.
  - exists (Ok tt, SpinnerSucceed). repeat split.
Qed.

(** X10. When the marker file is present and all five processes succeed,
    [gitUpdate] runs fetch, checkout, pull, submodule init and submodule
    update in this order and returns; the spinner of the pull is marked
    succeeded before the submodules are initialised. *)
Theorem gitUpdate_with_submodules
        (process_fails :
           list Event -> string -> list string -> ExecaOptions -> option string)
        (file_exists : list Event -> string -> bool)
        (join : list string -> string) (ctx : CloneContext) :
  (forall history,
      file_exists history (join [templateTmpDirPath ctx; ".gitmodules"])
      = true) ->
  (forall history args options,
      In args (update_steps ctx) ->
      process_fails history "git" args options = None) ->
  gitUpdate process_fails file_exists join ctx []
  = (Ok tt,
     (history_before_marker ctx
        ++ ExistsSync (join [templateTmpDirPath ctx; ".gitmodules"])
        :: submodule_phase ctx)%list)
  /\ processes (snd (gitUpdate process_fails file_exists join ctx []))
     = update_steps ctx.
Proof.
  intros Hmarker Hsucceed.
  assert (Hrun : gitUpdate process_fails file_exists join ctx []
                 = (Ok tt,
                    (history_before_marker ctx
                       ++ ExistsSync
                            (join [templateTmpDirPath ctx; ".gitmodules"])
                       :: submodule_phase ctx)%list)).
  { io_step.
    do 3 (rewrite Hsucceed by (cbn [In update_steps]; tauto); io_step).
    rewrite Hmarker.
    do 2 (rewrite Hsucceed by (cbn [In update_steps]; tauto); io_step).
    reflexivity. }
  split; [exact Hrun|]. rewrite Hrun. reflexivity.
Qed.

Lemma gitUpdate_with_submodules_witness :
  processes
    (snd (gitUpdate (scripted_processes []) always_marker posix_join
                    sample_context []))
  = update_steps sample_context.
Proof.
  apply (gitUpdate_with_submodules
           (scripted_processes []) always_marker posix_join sample_context).
  - reflexivity.
  - intros history args options _. unfold scripted_processes.
    now destruct (List.length (processes history)).
Defined.

(** X11. The outcome of [gitUpdate] always agrees with the spinner: either
    the call returns and its last effect is [spinner.succeed()], or it
    throws an [Error] whose message is ["Error: "] followed by the message
    of a failed process and its last effect is [spinner.fail()].  Nothing
    else is ever thrown. *)
Theorem gitUpdate_outcome
        (process_fails :
           list Event -> string -> list string -> ExecaOptions -> option string)
        (file_exists : list Event -> string -> bool)
        (join : list string -> string) (ctx : CloneContext) :
  (fst (gitUpdate process_fails file_exists join ctx []) = Ok tt
   /\ last (snd (gitUpdate process_fails file_exists join ctx [])) SpinnerFail
      = SpinnerSucceed
   /\ ~ In SpinnerFail (snd (gitUpdate process_fails file_exists join ctx [])))
  \/ (exists history file args options message,
         process_fails history file args options = Some message
         /\ fst (gitUpdate process_fails file_exists join ctx [])
            = Throw (Error ("Error: " ++ message))
         /\ snd (gitUpdate process_fails file_exists join ctx [])
            = (history ++ [Execa file args options; SpinnerFail])%list).
Proof.
  run_io;
    first [ left; repeat split; cbn [In]; intuition discriminate
          | right;
            match goal with
            | H : process_fails ?h ?f ?a ?o = Some ?m |- _ =>
                exists h, f, a, o, m; repeat split; exact H
            end ].
Qed.

(** X12. Every process of [gitUpdate] is [git] run in
    [ctx.templateTmpDirPath]; the environment is only handed to [submodule
    init]; the only file looked for is [.gitmodules] in that directory. *)
Theorem gitUpdate_in_clone_directory
        (process_fails :
           list Event -> string -> list string -> ExecaOptions -> option string)
        (file_exists : list Event -> string -> bool)
        (join : list string -> string) (ctx : CloneContext) :
  Forall (in_clone_directory (join [templateTmpDirPath ctx; ".gitmodules"]) ctx)
         (snd (gitUpdate process_fails file_exists join ctx [])).
Proof.
  run_io; repeat constructor; cbn; discriminate.
Qed.

(** ** Further properties of the route tree *)

Lemma Route_nested_ind (P : Route -> Prop) :
  (forall path, P (mkRoute path None)) ->
  (forall path rs, Forall P rs -> P (mkRoute path (Some rs))) ->
  forall item, P item.
Proof.
  intros Hleaf Hnode. fix IH 1. intros [path [rs|]].
  - apply Hnode. induction rs as [|r rs IHrs]; constructor;
      [apply IH | exact IHrs].
  - apply Hleaf.
Qed.

Lemma filter_defined_forallb {A : Type} (p : A -> bool)
      (l : list (option A)) :
  Forall (fun o => match o with Some a => p a = true | None => True end) l ->
  forallb p (filter_defined l) = true.
Proof.
  induction 1 as [|[a|] l Ha _ IH]; cbn [filter_defined forallb];
    [reflexivity | now rewrite Ha, IH | exact IH].
Qed.

Lemma routeToNode_path_node (item : Route) :
  match routeToNode item with
  | Some node => path_node node = true
  | None => True
  end.
Proof.
  induction item as [path | path rs IH] using Route_nested_ind;
    destruct path as [p|]; cbn [routeToNode truthy_string]; try exact I;
    destruct (p =? "") eqn:Hp; cbn [negb]; try exact I;
    cbn [path_node map filter_defined forallb];
    rewrite String.eqb_refl, Hp; cbn [negb andb]; [reflexivity|].
  apply filter_defined_forallb. apply Forall_map. exact IH.
Qed.

(** X13. Every node [genRouterToTreeData] produces, at any depth, has its
    title, its value and its key equal to one non-empty path. *)
Theorem genRouterToTreeData_path_nodes (routes : list Route) :
  forallb path_node (genRouterToTreeData routes) = true.
Proof.
  unfold genRouterToTreeData. apply filter_defined_forallb, Forall_map.
  apply Forall_forall. intros item _. apply routeToNode_path_node.
Qed.

Lemma bindings_from_incl (nodes nodes' : list RouteNode) (o : Obj) :
  incl nodes nodes' -> bindings_from nodes o -> bindings_from nodes' o.
Proof.
  intros Hincl Ho k n Hget. destruct (Ho k n Hget) as [Hkey Hin].
  split; [exact Hkey | now apply Hincl].
Qed.

Lemma bindings_from_empty (nodes : list RouteNode) :
  bindings_from nodes empty_object.
Proof. intros k n Hget. discriminate Hget. Qed.

Lemma reduceStep_bindings (node : RouteNode) :
  forall pre nodes,
    good_object pre ->
    bindings_from nodes pre ->
    bindings_from (nodes ++ node_nodes node) (reduceStep pre node).
Proof.
  induction node as [t v nk kids IH] using RouteNode_nested_ind.
  intros pre nodes Hgood Hpre.
  assert (Hkids : forall acc seen,
             good_object acc -> bindings_from seen acc ->
             bindings_from (seen ++ tree_nodes kids)
                           (fold_left reduceStep kids acc)).
  { clear Hgood Hpre pre nodes.
    induction IH as [|n ns Hn _ IHns]; intros acc seen Hacc Hseen;
      cbn [fold_left tree_nodes flat_map].
    - now rewrite app_nil_r.
    - rewrite app_assoc. apply IHns; [now apply reduceStep_good|].
      now apply Hn. }
  rewrite reduceStep_eq.
  set (current := mkNode t v nk kids).
  pose proof (guarded_set_good pre nk current Hgood) as [Hnd' _].
  pose proof (Hkids empty_object [] good_empty (bindings_from_empty []))
    as Hchildren.
  cbn [app] in Hchildren. fold (reduceData kids) in Hchildren.
  intros k n Hget.
  destruct (in_dec string_dec k (own_keys (reduceData kids))) as [Hin|Hnot].
  - rewrite get_spread_key in Hget;
      [|exact Hnd'|apply reduceData_good|exact Hin].
    destruct (Hchildren k n Hget) as [Hkey Hnode]. split; [exact Hkey|].
    apply in_or_app. right. cbn [node_nodes]. right. exact Hnode.
  - rewrite (get_spread_other _ _ Hnd' k Hnot) in Hget.
    destruct (negb (read_truthy pre nk)).
    + destruct (string_dec nk k) as [->|Hne].
      * rewrite get_set_same in Hget. injection Hget as <-.
        split; [reflexivity|]. apply in_or_app. right. now left.
      * rewrite (get_set_other _ _ _ _ Hne) in Hget.
        destruct (Hpre k n Hget) as [Hkey Hnode].
        split; [exact Hkey | apply in_or_app; now left].
    + destruct (Hpre k n Hget) as [Hkey Hnode].
      split; [exact Hkey | apply in_or_app; now left].
Qed.

(** X14. The own properties of the flattened mapping never hold a foreign
    node: a key that is an own property is bound to a node of the tree, at
    some depth, that carries this key, and it is not the name of a member
    inherited from [Object.prototype] (a node with such a key is never
    stored). *)
Theorem reduceData_lookup_sound (treeData : list RouteNode) (k : string)
        (node : RouteNode) :
  get (reduceData treeData) k = Some node ->
  key node = k /\ In node (tree_nodes treeData) /\ is_inherited k = false.
Proof.
  intros Hget.
  assert (Hplain : is_inherited k = false).
  { apply get_defined_key, keys_reduceData in Hget. tauto. }
  revert k node Hget Hplain.
  assert (Hall : bindings_from (tree_nodes treeData) (reduceData treeData)).
  { unfold reduceData.
    assert (H : forall acc seen,
               good_object acc -> bindings_from seen acc ->
               bindings_from (seen ++ tree_nodes treeData)
                             (fold_left reduceStep treeData acc)).
    { induction treeData as [|n ns IH]; intros acc seen Hacc Hseen;
        cbn [fold_left tree_nodes flat_map].
      - now rewrite app_nil_r.
      - rewrite app_assoc. apply IH; [now apply reduceStep_good|].
        now apply reduceStep_bindings. }
    exact (H empty_object [] good_empty (bindings_from_empty [])). }
  intros k node Hget Hplain. destruct (Hall k node Hget). tauto.
Qed.

Lemma reduceData_lookup_sound_witness :
  key user_node = "/user"
  /\ In user_node (tree_nodes (genRouterToTreeData user_routes))
  /\ is_inherited "/user" = false.
Proof.
  apply (reduceData_lookup_sound (genRouterToTreeData user_routes)
                                 "/user" user_node).
  reflexivity.
Defined.

Lemma keys_entries (nodes : list RouteNode) :
  own_keys (entries nodes) = map key nodes.
Proof. unfold own_keys, entries. rewrite map_map. reflexivity. Qed.

Lemma entries_app (l l' : list RouteNode) :
  entries (l ++ l') = (entries l ++ entries l')%list.
Proof. apply map_app. Qed.

Lemma keys_app (o o' : Obj) :
  own_keys (o ++ o')%list = (own_keys o ++ own_keys o')%list.
Proof. apply map_app. Qed.

Lemma map_key_node_nodes (node : RouteNode) :
  map key (node_nodes node) = node_keys node.
Proof.
  induction node as [t v nk kids IH] using RouteNode_nested_ind.
  cbn [node_nodes node_keys map key]. f_equal.
  induction IH as [|n ns Hn _ IHns]; [reflexivity|].
  cbn [flat_map]. now rewrite map_app, Hn, IHns.
Qed.

Lemma map_key_tree_nodes (treeData : list RouteNode) :
  map key (tree_nodes treeData) = tree_keys treeData.
Proof.
  induction treeData as [|n ns IH]; [reflexivity|].
  cbn [tree_nodes tree_keys flat_map].
  rewrite map_app, map_key_node_nodes. f_equal. exact IH.
Qed.

(** *** Objects whose keys are plain *)

Lemma plain_not_index (ks : list string) :
  forallb plain_key ks = true ->
  forallb (fun k => negb (is_array_index k)) ks = true.
Proof.
  rewrite !forallb_forall. intros H k Hk. specialize (H k Hk).
  unfold plain_key in H. now apply andb_true_iff in H.
Qed.

Lemma listed_entries_self (o : Obj) :
  NoDup (own_keys o) -> map (fun k => (k, get o k)) (own_keys o) = o.
Proof.
  induction o as [|[k v] o IH]; intros Hnd; [reflexivity|].
  cbn [own_keys map fst] in *. inversion Hnd as [|? ? Hnot Hnd']; subst.
  cbn [get]. rewrite String.eqb_refl. f_equal.
  rewrite <- (IH Hnd') at 2. apply map_ext_in. intros k' Hk'.
  cbn [get]. destruct (k =? k') eqn:E; [|reflexivity].
  apply String.eqb_eq in E. subst k'. contradiction.
Qed.

Lemma own_entries_plain (o : Obj) :
  NoDup (own_keys o) ->
  forallb (fun k => negb (is_array_index k)) (own_keys o) = true ->
  own_entries o = o.
Proof.
  intros Hnd Hplain. unfold own_entries.
  rewrite (Object_keys_plain o Hplain). now apply listed_entries_self.
Qed.

(** Without array-index keys and with disjoint keys, a spread appends. *)
Lemma spread_plain (a b : Obj) :
  NoDup (own_keys (a ++ b)%list) ->
  forallb (fun k => negb (is_array_index k)) (own_keys (a ++ b)%list) = true ->
  spread a b = (a ++ b)%list.
Proof.
  intros Hnd Hplain. rewrite keys_app in Hnd, Hplain.
  rewrite forallb_app in Hplain. apply andb_true_iff in Hplain as [Hpa Hpb].
  pose proof (NoDup_app_remove_r _ _ Hnd) as Hnda.
  pose proof (NoDup_app_remove_l _ _ Hnd) as Hndb.
  rewrite (spread_fold a b Hnda), (own_entries_plain a Hnda Hpa),
    (own_entries_plain b Hndb Hpb).
  apply assign_all_fresh. now rewrite keys_app.
Qed.

(** With fresh plain keys, a fold of steps appends the nodes in order. *)
Lemma fold_reduceStep_fresh (nodes : list RouteNode) :
  Forall (fun n => forall pre,
              NoDup (own_keys pre ++ node_keys n) ->
              forallb plain_key (own_keys pre ++ node_keys n) = true ->
              reduceStep pre n = (pre ++ entries (node_nodes n))%list) nodes ->
  forall pre,
    NoDup (own_keys pre ++ tree_keys nodes) ->
    forallb plain_key (own_keys pre ++ tree_keys nodes) = true ->
    fold_left reduceStep nodes pre = (pre ++ entries (tree_nodes nodes))%list.
Proof.
  induction 1 as [|n ns Hn _ IH]; intros pre Hnd Hplain;
    cbn [fold_left tree_nodes tree_keys flat_map] in *.
  - now rewrite app_nil_r.
  - rewrite app_assoc in Hnd, Hplain.
    rewrite Hn;
      [|apply NoDup_app_remove_r in Hnd; exact Hnd
       |rewrite forallb_app in Hplain;
        now apply andb_true_iff in Hplain as [Hplain _]].
    rewrite IH.
    + now rewrite entries_app, app_assoc.
    + now rewrite keys_app, keys_entries, map_key_node_nodes.
    + now rewrite keys_app, keys_entries, map_key_node_nodes.
Qed.

Lemma reduceStep_fresh (node : RouteNode) :
  forall pre,
    NoDup (own_keys pre ++ node_keys node) ->
    forallb plain_key (own_keys pre ++ node_keys node) = true ->
    reduceStep pre node = (pre ++ entries (node_nodes node))%list.
Proof.
  induction node as [t v nk kids IH] using RouteNode_nested_ind.
  intros pre Hnd Hplain. rewrite reduceStep_eq.
  cbn [node_keys] in Hnd, Hplain. fold (tree_keys kids) in Hnd, Hplain.
  assert (Hfresh : ~ In nk (own_keys pre)).
  { intros Hin. apply NoDup_remove_2 in Hnd. apply Hnd.
    apply in_or_app. now left. }
  assert (Hnk : plain_key nk = true).
  { rewrite forallb_forall in Hplain. apply Hplain.
    apply in_or_app. right. now left. }
  assert (Hread : read_truthy pre nk = false).
  { unfold plain_key in Hnk. apply andb_true_iff in Hnk as [_ Hinh].
    apply negb_true_iff in Hinh. unfold read_truthy.
    apply has_own_false in Hfresh. now rewrite Hfresh. }
  rewrite Hread. cbn [negb]. rewrite (set_not_key pre nk _ Hfresh).
  assert (Hkids : NoDup (tree_keys kids)).
  { apply NoDup_app_remove_l in Hnd. now inversion Hnd. }
  assert (Hkidsplain : forallb plain_key (tree_keys kids) = true).
  { rewrite forallb_app in Hplain. apply andb_true_iff in Hplain as [_ H].
    cbn [forallb] in H. now apply andb_true_iff in H as [_ H]. }
  unfold reduceData.
  rewrite (fold_reduceStep_fresh kids IH empty_object)
    by assumption.
  cbn [app empty_object].
  assert (Hkeys : own_keys ((pre ++ [(nk, Some (mkNode t v nk kids))])
                              ++ entries (tree_nodes kids))%list
                  = (own_keys pre ++ nk :: tree_keys kids)%list).
  { now rewrite !keys_app, keys_entries, map_key_tree_nodes, <- app_assoc. }
  rewrite spread_plain.
  - cbn [node_nodes entries map key].
    fold (tree_nodes kids). fold (entries (tree_nodes kids)).
    now rewrite <- app_assoc.
  - now rewrite Hkeys.
  - rewrite Hkeys. now apply plain_not_index.
Qed.

Lemma reduceData_fresh (treeData : list RouteNode) :
  NoDup (tree_keys treeData) ->
  forallb plain_key (tree_keys treeData) = true ->
  reduceData treeData = entries (tree_nodes treeData).
Proof.
  intros Hnd Hplain. unfold reduceData.
  rewrite fold_reduceStep_fresh; [reflexivity| |exact Hnd|exact Hplain].
  apply Forall_forall. intros n _. apply reduceStep_fresh.
Qed.

Lemma reduceData_preorder_keys (treeData : list RouteNode) :
  NoDup (tree_keys treeData) ->
  forallb plain_key (tree_keys treeData) = true ->
  reduceData treeData = entries (tree_nodes treeData)
  /\ Object_keys (reduceData treeData) = tree_keys treeData.
Proof.
  intros Hnd Hplain. rewrite (reduceData_fresh treeData Hnd Hplain).
  split; [reflexivity|].
  rewrite Object_keys_plain; rewrite keys_entries, map_key_tree_nodes;
    [reflexivity | now apply plain_not_index].
Qed.

(** X15. When the keys of the tree are all distinct and none of them is
    an array index or the name of a member inherited from
    [Object.prototype], the flattened mapping lists the nodes of the tree in
    depth-first order, each parent before its children, every node under
    its own key, and [Object.keys] enumerates them in that order. *)
Theorem reduceData_preorder (treeData : list RouteNode) :
  NoDup (tree_keys treeData) ->
  forallb plain_key (tree_keys treeData) = true ->
  reduceData treeData = entries (tree_nodes treeData)
  /\ Object_keys (reduceData treeData) = tree_keys treeData.
Proof. apply reduceData_preorder_keys. Qed.

Lemma reduceData_preorder_witness :
  Object_keys (reduceData (genRouterToTreeData admin_routes))
  = ["/admin"; "/admin/users"; "/admin/users/new"; "/admin/logs"; "/about"].
Proof.
  refine (proj2 (reduceData_preorder (genRouterToTreeData admin_routes) _ _)).
  - cbn. repeat (constructor; [cbn [In]; intuition discriminate|]).
    constructor.
  - reflexivity.
Defined.

(** *** [routeExists] as a search *)

Lemma tree_keys_filter_defined (l : list (option RouteNode)) :
  tree_keys (filter_defined l)
  = flat_map (fun o => match o with
                       | Some node => node_keys node
                       | None => []
                       end) l.
Proof.
  induction l as [|[n|] l IH]; cbn [filter_defined tree_keys flat_map];
    [reflexivity | | exact IH].
  f_equal. exact IH.
Qed.

Lemma route_reachable_keys (path : string) (item : Route) :
  In path match routeToNode item with
          | Some node => node_keys node
          | None => []
          end
  <-> route_reachable path item = true.
Proof.
  assert (Hlist : forall rs,
             Forall (fun item =>
                       In path match routeToNode item with
                               | Some node => node_keys node
                               | None => []
                               end
                       <-> route_reachable path item = true) rs ->
             In path (tree_keys (filter_defined (map routeToNode rs)))
             <-> existsb (route_reachable path) rs = true).
  { intros rs Hrs. rewrite tree_keys_filter_defined, flat_map_concat_map.
    rewrite map_map, <- flat_map_concat_map.
    induction Hrs as [|r rs Hr _ IH]; cbn [flat_map existsb]; [easy|].
    rewrite in_app_iff, orb_true_iff, Hr, IH. tauto. }
  induction item as [p | p rs IH] using Route_nested_ind;
    destruct p as [p|]; cbn [routeToNode route_reachable truthy_string];
    try easy;
    destruct (p =? "") eqn:Hp; cbn [negb andb]; try easy;
    cbn [node_keys In map filter_defined flat_map];
    rewrite ?orb_false_r, ?orb_true_iff.
  - rewrite String.eqb_eq. tauto.
  - fold (tree_keys (filter_defined (map routeToNode rs))).
    rewrite (Hlist rs IH), String.eqb_eq. tauto.
Qed.

Lemma tree_keys_search (path : string) (routes : list Route) :
  In path (tree_keys (genRouterToTreeData routes))
  <-> existsb (route_reachable path) routes = true.
Proof.
  unfold genRouterToTreeData.
  rewrite tree_keys_filter_defined, flat_map_concat_map, map_map,
    <- flat_map_concat_map.
  induction routes as [|r rs IH]; cbn [flat_map existsb]; [easy|].
  rewrite in_app_iff, orb_true_iff, route_reachable_keys, IH. tauto.
Qed.

Lemma routeExists_search (path : string) (routes : list Route) :
  routeExists path routes
  = existsb (route_reachable path) routes || is_inherited path.
Proof.
  rewrite routeExists_read.
  destruct (is_inherited path) eqn:Hinh; [now rewrite !orb_true_r|].
  rewrite !orb_false_r. apply eq_true_iff_eq.
  rewrite has_own_In, keys_reduceData, tree_keys_search. tauto.
Qed.

(** X16. [routeExists] agrees with a direct search of the configuration,
    except that the names of the members inherited from [Object.prototype]
    always exist: a path exists exactly when it is such a name or the
    non-empty path of a route all of whose enclosing routes have a non-empty
    path.  Routes nested under an entry without a path are never found. *)
Theorem routeExists_is_search (path : string) (routes : list Route) :
  routeExists path routes
  = existsb (route_reachable path) routes || is_inherited path
  /\ forall nested,
      routeExists path [mkRoute None nested] = is_inherited path.
Proof.
  split; [apply routeExists_search|].
  intros nested. now rewrite routeExists_search.
Qed.

(** X17. Existence in a concatenation of route lists is existence in one
    of them; in particular adding routes never hides an existing path. *)
Theorem routeExists_app (path : string) (routes routes' : list Route) :
  routeExists path (routes ++ routes')%list
  = routeExists path routes || routeExists path routes'.
Proof.
  rewrite !routeExists_search, existsb_app.
  destruct (existsb (route_reachable path) routes),
    (existsb (route_reachable path) routes'), (is_inherited path);
    reflexivity.
Qed.

(** X19. [routeExists path routes] is true exactly when [path] is a key of
    the flattened mapping or the name of a member inherited from
    [Object.prototype]; for any other path it is the exact-key test, and
    the keys synthesised by [depthRouterConfig] do not count. *)
Theorem routeExists_own_or_inherited (path : string) (routes : list Route) :
  (routeExists path routes = true
   <-> In path (Object_keys (reduceData (genRouterToTreeData routes)))
       \/ is_inherited path = true)
  /\ (is_inherited path = false ->
      (routeExists path routes = true
       <-> In path (Object_keys (reduceData (genRouterToTreeData routes)))))
  /\ routeExists "/user" [leaf_route "/user/list"] = false
  /\ In "/user"
        (Object_keys (fst (depthRouterConfig_map [leaf_route "/user/list"]))).
Proof.
  assert (Hiff : routeExists path routes = true
                 <-> In path (Object_keys
                                (reduceData (genRouterToTreeData routes)))
                     \/ is_inherited path = true).
  { rewrite routeExists_read, orb_true_iff, has_own_In, In_Object_keys.
    tauto. }
  split; [exact Hiff|]. split.
  - intros Hplain. rewrite Hiff, Hplain. intuition discriminate.
  - split; [reflexivity | cbn; tauto].
Qed.

Lemma routeExists_own_or_inherited_witness :
  routeExists "/user/list" user_routes = true
  <-> In "/user/list"
         (Object_keys (reduceData (genRouterToTreeData user_routes))).
Proof.
  apply (proj1 (proj2 (routeExists_own_or_inherited "/user/list" user_routes))).
  reflexivity.
Defined.

Lemma getBlockListFromGit_effects_witness :
  (exists blocks,
      fst (getBlockListFromGit parse_umi_blocks plain unit offline no_json
                               no_tree "https://github.com/umijs/umi-blocks"
                               [])
      = Ok (GeneratedList blocks))
  <-> last (snd (getBlockListFromGit parse_umi_blocks plain unit offline
                                     no_json no_tree
                                     "https://github.com/umijs/umi-blocks" []))
           LoadingSucceed
      = LoadingSucceed.
Proof.
  apply (proj1 (proj2 (getBlockListFromGit_effects
                         parse_umi_blocks plain unit offline no_json no_tree
                         "https://github.com/umijs/umi-blocks"))).
  reflexivity.
Defined.

(** *** [depthRouterConfig] on configurations with plain distinct paths *)

Lemma get_entries (nodes : list RouteNode) :
  NoDup (map key nodes) ->
  forall node, In node nodes -> get (entries nodes) (key node) = Some node.
Proof.
  induction nodes as [|n ns IH]; intros Hnd node Hin; [contradiction|].
  cbn [map] in Hnd. inversion Hnd as [|? ? Hnot Hnd']; subst.
  cbn [entries map get]. destruct (key n =? key node) eqn:E.
  - destruct Hin as [->|Hin]; [reflexivity|].
    apply String.eqb_eq in E. exfalso. apply Hnot. rewrite E.
    now apply in_map.
  - destruct Hin as [->|Hin]; [now rewrite String.eqb_refl in E|].
    now apply IH.
Qed.

Lemma filter_defined_has_children (nodes : list RouteNode) :
  filter_defined (filter has_children (map Some nodes))
  = filter has_child nodes.
Proof.
  induction nodes as [|n ns IH]; [reflexivity|].
  cbn [map filter]. change (has_children (Some n)) with (has_child n).
  destruct (has_child n); cbn [filter_defined]; now rewrite IH.
Qed.

(** X18. For a configuration whose paths are all distinct, none of them an
    array index or the name of a member inherited from [Object.prototype],
    and in which no path is an ancestor prefix of a path listed before it,
    [depthRouterConfig] returns the nodes that have children, from every
    depth of the tree, in depth-first order. *)
Theorem depthRouterConfig_distinct_paths (routes : list Route) :
  NoDup (tree_keys (genRouterToTreeData routes)) ->
  forallb plain_key (tree_keys (genRouterToTreeData routes)) = true ->
  ancestors_first (tree_keys (genRouterToTreeData routes)) = true ->
  depthRouterConfig routes
  = filter has_child (tree_nodes (genRouterToTreeData routes)).
Proof.
  intros Hnd Hplain Hfirst.
  destruct (reduceData_preorder_keys (genRouterToTreeData routes) Hnd Hplain)
    as [Hflat Hkeys].
  unfold depthRouterConfig, depthRouterConfig_map.
  rewrite Hkeys, Hflat.
  rewrite (expand_keys_exact (entries (tree_nodes (genRouterToTreeData routes))));
    [|exact Hfirst|reflexivity].
  cbn [app]. rewrite <- map_key_tree_nodes, map_map.
  rewrite <- filter_defined_has_children. do 2 f_equal.
  apply map_ext_in. intros n Hn. apply get_entries; [|exact Hn].
  now rewrite map_key_tree_nodes.
Qed.

Lemma depthRouterConfig_distinct_paths_witness :
  map key (depthRouterConfig admin_routes) = ["/admin"; "/admin/users"].
Proof.
  rewrite (depthRouterConfig_distinct_paths admin_routes).
  - reflexivity.
  - cbn. repeat (constructor; [cbn [In]; intuition discriminate|]).
    constructor.
  - reflexivity.
  - reflexivity.
Defined.

(** [depthRouterConfig] follows the order of [Object.keys], not the order
    of the configuration: a route whose path is an array index is returned
    before the routes listed ahead of it. *)
Example depthRouterConfig_numbered_first :
  ancestors_first
    (Object_keys (reduceData (genRouterToTreeData numbered_routes))) = true
  /\ Object_keys (reduceData (genRouterToTreeData numbered_routes))
     = ["1"; "2"; "b"; "c"]
  /\ map key (depthRouterConfig numbered_routes) = ["1"; "b"].
Proof. repeat split. Qed.
